(** * Bamboo forest: the post store, its counters and its indexes

    A shallow embedding of [app/services/redis_service.py] (the Redis
    commands it issues, its three Lua scripts and the Python around them),
    of the request handlers of [app/api/endpoints/posts.py] and of the
    response schemas of [app/schemas/post.py] that those handlers build.

    The Redis server is a value of type [Redis]; every command is a function
    on it, and the Python coroutines thread it through a small state monad.
    A Lua script is one function: it runs as one step of the server. *)

From stdpp Require Import base option strings gmap sorting.
From Stdlib Require Import ZArith Lia.

Local Open Scope Z_scope.

(** ** app/core/config.py: the business settings *)

Record Settings := mkSettings {
  post_default_ttl : Z;
  recommendation_extension_ttl : Z;
  recommendation_extension_threshold : Z;
  hall_of_fame_view_threshold : Z;
  report_blind_threshold : Z
}.

(** The values of the class body (no environment override). *)
Definition default_settings : Settings :=
  {| post_default_ttl := 600;
     recommendation_extension_ttl := 300;
     recommendation_extension_threshold := 100;
     hall_of_fame_view_threshold := 100000;
     report_blind_threshold := 50 |}.

(** ** app/schemas/post.py: PostStatus *)

Inductive PostStatus := ACTIVE | BLINDED | EXPIRED | HALL_OF_FAME.

#[global] Instance PostStatus_eq_dec : EqDecision PostStatus.
Proof. solve_decision. Defined.

(** ** The Redis data model *)

(** The hash stored at [post:{id}].  Every field may be missing: HINCRBY on
    a key that does not exist creates a hash holding that one counter.  The
    counters are the integers HINCRBY keeps there; [created_at] and
    [created_at_ts] both hold the creation instant. *)
Record Hash := mkHash {
  f_id : option string;
  f_content : option string;
  f_created_at : option Z;
  f_created_at_ts : option Z;
  f_tags : option (list string);
  f_views : option Z;
  f_recommendations : option Z;
  f_reports : option Z;
  f_status : option PostStatus
}.

Definition empty_hash : Hash :=
  mkHash None None None None None None None None None.

(** A key of the keyspace: the hash and its time to live in seconds
    ([None]: the key never expires). *)
Record Entry := mkEntry {
  hash : Hash;
  expire : option Z
}.

(** The four sorted sets: member -> score.  Scores are the counters and
    the clock readings of the service; both are kept as integers here
    (whole seconds for the clock). *)
Inductive zkey := posts_active | posts_expiring | posts_rank_views | posts_rank_recs.

Record Redis := mkRedis {
  keyspace : gmap string Entry;
  active : gmap string Z;
  expiring : gmap string Z;
  rank_views : gmap string Z;
  rank_recs : gmap string Z
}.

Definition empty_redis : Redis := mkRedis ∅ ∅ ∅ ∅ ∅.

Definition zset (z : zkey) (r : Redis) : gmap string Z :=
  match z with
  | posts_active => active r
  | posts_expiring => expiring r
  | posts_rank_views => rank_views r
  | posts_rank_recs => rank_recs r
  end.

Definition with_zset (z : zkey) (m : gmap string Z) (r : Redis) : Redis :=
  match z with
  | posts_active => mkRedis (keyspace r) m (expiring r) (rank_views r) (rank_recs r)
  | posts_expiring => mkRedis (keyspace r) (active r) m (rank_views r) (rank_recs r)
  | posts_rank_views => mkRedis (keyspace r) (active r) (expiring r) m (rank_recs r)
  | posts_rank_recs => mkRedis (keyspace r) (active r) (expiring r) (rank_views r) m
  end.

Definition with_keyspace (k : gmap string Entry) (r : Redis) : Redis :=
  mkRedis k (active r) (expiring r) (rank_views r) (rank_recs r).

(** The three counters of a post. *)
Inductive counter := views | recommendations | reports.

Definition get_counter (c : counter) (h : Hash) : option Z :=
  match c with
  | views => f_views h
  | recommendations => f_recommendations h
  | reports => f_reports h
  end.

Definition set_counter (c : counter) (n : Z) (h : Hash) : Hash :=
  match c with
  | views =>
      mkHash (f_id h) (f_content h) (f_created_at h) (f_created_at_ts h)
             (f_tags h) (Some n) (f_recommendations h) (f_reports h) (f_status h)
  | recommendations =>
      mkHash (f_id h) (f_content h) (f_created_at h) (f_created_at_ts h)
             (f_tags h) (f_views h) (Some n) (f_reports h) (f_status h)
  | reports =>
      mkHash (f_id h) (f_content h) (f_created_at h) (f_created_at_ts h)
             (f_tags h) (f_views h) (f_recommendations h) (Some n) (f_status h)
  end.

Definition set_status (s : PostStatus) (h : Hash) : Hash :=
  mkHash (f_id h) (f_content h) (f_created_at h) (f_created_at_ts h)
         (f_tags h) (f_views h) (f_recommendations h) (f_reports h) (Some s).

(** ** The state monad of the coroutines *)

Definition M (A : Type) : Type := Redis → Redis * A.

Definition ret {A} (a : A) : M A := λ r, (r, a).

Definition bind {A B} (m : M A) (k : A → M B) : M B :=
  λ r, let '(r1, a) := m r in k a r1.

Declare Scope redis_scope.
Delimit Scope redis_scope with redis.
Notation "x <- m ;; k" := (bind m (λ x, k))
  (at level 100, m at next level, right associativity) : redis_scope.
Notation "m ;;; k" := (bind m (λ _, k))
  (at level 100, right associativity) : redis_scope.
Local Open Scope redis_scope.

(** The store and the value a coroutine leaves. *)
Definition exec {A} (m : M A) (r : Redis) : Redis := fst (m r).
Definition eval {A} (m : M A) (r : Redis) : A := snd (m r).

(** ** Redis commands *)

Definition EXISTS (key : string) : M bool :=
  λ r, (r, bool_decide (is_Some (keyspace r !! key))).

Definition HGETALL (key : string) : M Hash :=
  λ r, (r, from_option hash empty_hash (keyspace r !! key)).

Definition HGET_status (key : string) : M (option PostStatus) :=
  λ r, (r, keyspace r !! key ≫= λ e, f_status (hash e)).

Definition HGET (key : string) (c : counter) : M (option Z) :=
  λ r, (r, keyspace r !! key ≫= λ e, get_counter c (hash e)).

(** HINCRBY: a missing key is created (empty hash, no expiry), a missing
    field counts as 0; the time to live of an existing key is kept. *)
Definition HINCRBY (key : string) (c : counter) (d : Z) : M Z :=
  λ r,
    let e := default (mkEntry empty_hash None) (keyspace r !! key) in
    let n := default 0 (get_counter c (hash e)) + d in
    (with_keyspace (<[key := mkEntry (set_counter c n (hash e)) (expire e)]> (keyspace r)) r, n).

Definition HSET_status (key : string) (s : PostStatus) : M unit :=
  λ r,
    let e := default (mkEntry empty_hash None) (keyspace r !! key) in
    (with_keyspace (<[key := mkEntry (set_status s (hash e)) (expire e)]> (keyspace r)) r, tt).

(** HSET with the nine-field mapping of [create_post]: every field of the
    hash is overwritten; an existing key keeps its time to live. *)
Definition HSET_mapping (key : string) (h : Hash) : M unit :=
  λ r,
    let ttl := keyspace r !! key ≫= expire in
    (with_keyspace (<[key := mkEntry h ttl]> (keyspace r)) r, tt).

(** TTL: -2 for a missing key, -1 for a key with no expiry. *)
Definition TTL (key : string) : M Z :=
  λ r, (r, match keyspace r !! key with
           | None => -2
           | Some e => default (-1) (expire e)
           end).

(** EXPIRE: nothing on a missing key; a timeout that is not positive
    deletes the key. *)
Definition EXPIRE (key : string) (seconds : Z) : M unit :=
  λ r, match keyspace r !! key with
       | None => (r, tt)
       | Some e =>
           if decide (seconds ≤ 0)
           then (with_keyspace (delete key (keyspace r)) r, tt)
           else (with_keyspace (<[key := mkEntry (hash e) (Some seconds)]> (keyspace r)) r, tt)
       end.

Definition ZADD (z : zkey) (member : string) (score : Z) : M unit :=
  λ r, (with_zset z (<[member := score]> (zset z r)) r, tt).

Definition ZINCRBY (z : zkey) (d : Z) (member : string) : M Z :=
  λ r, let s := default 0 (zset z r !! member) + d in
       (with_zset z (<[member := s]> (zset z r)) r, s).

Definition ZREM (z : zkey) (member : string) : M unit :=
  λ r, (with_zset z (delete member (zset z r)) r, tt).

Definition ZSCORE (z : zkey) (member : string) : M (option Z) :=
  λ r, (r, zset z r !! member).

(** ZRANGEBYSCORE z lo hi: the members whose score lies in [lo, hi].  The
    server returns them by increasing score; the only caller removes each
    one, so the order is not kept here. *)
Definition ZRANGEBYSCORE (z : zkey) (lo hi : Z) : M (list string) :=
  λ r, (r, (map_to_list (filter (λ kv, lo ≤ kv.2 ≤ hi) (zset z r))).*1).

(** The order in which ZREVRANGE walks a sorted set: from the highest
    score down, and among equal scores from the greatest member down
    (members compared byte by byte). *)
Definition zrev_le (a b : string * Z) : Prop :=
  b.2 < a.2 ∨ (b.2 = a.2 ∧ String.leb b.1 a.1 = true).

#[global] Instance zrev_le_dec a b : Decision (zrev_le a b).
Proof. unfold zrev_le. solve_decision. Defined.

Definition zrev_sorted (m : gmap string Z) : list (string * Z) :=
  merge_sort zrev_le (map_to_list m).

(** A range of ranks [start .. stop] of a list of [llen] elements, as the
    server reads it: a negative index counts from the end, a start before
    the first element is the first element, a stop past the last element
    is the last element, and a start past the stop or past the end gives
    nothing. *)
Definition range_by_rank {A} (l : list A) (start stop : Z) : list A :=
  let llen := Z.of_nat (length l) in
  let start := if decide (start < 0) then llen + start else start in
  let stop := if decide (stop < 0) then llen + stop else stop in
  let start := if decide (start < 0) then 0 else start in
  if decide (stop < start ∨ llen ≤ start) then []
  else
    let stop := if decide (llen ≤ stop) then llen - 1 else stop in
    take (Z.to_nat (stop - start + 1)) (drop (Z.to_nat start) l).

Definition ZREVRANGE_WITHSCORES (z : zkey) (start stop : Z) : M (list (string * Z)) :=
  λ r, (r, range_by_rank (zrev_sorted (zset z r)) start stop).

Definition ZREVRANGE (z : zkey) (start stop : Z) : M (list string) :=
  λ r, (r, (range_by_rank (zrev_sorted (zset z r)) start stop).*1).

Definition ZCARD (z : zkey) : M Z :=
  λ r, (r, Z.of_nat (size (zset z r))).

(** ** Lua and Python values that cross the script boundary *)

(** What [redis.eval] hands back for one element of a script's table: an
    integer (a Lua number, or Lua [true], which arrives as 1), a bulk string
    (here always the decimal digits of a counter, as HGET returns it), or
    nil (Lua [false], and so also the HGET of a missing field). *)
Inductive reply := RInt (n : Z) | RBulk (digits : Z) | RNil.

#[global] Instance reply_eq_dec : EqDecision reply.
Proof. solve_decision. Defined.

(** Python [int(v)]: the integer itself, the number a digit string
    denotes; [int(None)] raises. *)
Definition int (v : reply) : option Z :=
  match v with
  | RInt n => Some n
  | RBulk n => Some n
  | RNil => None
  end.

(** Python truth of a reply: [None] and 0 are false. *)
Definition truthy (v : reply) : bool :=
  match v with
  | RInt n => negb (n =? 0)
  | RBulk _ => true
  | RNil => false
  end.

(** Lua [a % b] on numbers: [a - floor(a/b)*b]; not a number when [b] is 0. *)
Definition lua_mod (a b : Z) : option Z :=
  if decide (b = 0) then None else Some (a mod b).

(** Lua [string.sub(s, i)]: the characters of [s] from position [i] on,
    positions counted from 1. *)
Fixpoint string_drop (n : nat) (s : string) : string :=
  match n, s with
  | O, _ => s
  | S n', String _ s' => string_drop n' s'
  | S _, EmptyString => EmptyString
  end.

Definition string_sub (s : string) (i : nat) : string := string_drop (i - 1) s.

(** The key of a post: [f"post:{post_id}"]. *)
Definition post_key (post_id : string) : string := "post:" +:+ post_id.

(** Python exceptions raised on the paths modelled here. *)
Inductive exn := ValueError | TypeError | ValidationError.

Inductive result (A : Type) := Ok (a : A) | Raise (e : exn).
Arguments Ok {A} a.
Arguments Raise {A} e.

(** The user-facing messages (Korean f-strings in the source, kept by
    shape and by the numbers formatted into them). *)
Inductive Message :=
| msg_recommend_refused                  (* a blinded post cannot be recommended *)
| msg_extended (threshold minutes : Z)   (* "{threshold}th recommendation! extended by {minutes} minutes" *)
| msg_blinded (threshold : Z)            (* "blinded by the {threshold}th report" *)
| msg_reported.                          (* "the post has been reported" *)

(** ** redis.asyncio pipelines *)

(** A command queued on a pipeline. *)
Inductive command :=
| cmd_hset (key : string) (mapping : Hash)
| cmd_expire (key : string) (seconds : Z)
| cmd_zadd (z : zkey) (member : string) (score : Z)
| cmd_zrem (z : zkey) (member : string).

Definition run (c : command) : M unit :=
  match c with
  | cmd_hset key mapping => HSET_mapping key mapping
  | cmd_expire key seconds => EXPIRE key seconds
  | cmd_zadd z member score => ZADD z member score
  | cmd_zrem z member => ZREM z member
  end.

(** [pipeline(transaction=True)]: the queue of commands. *)
Definition Pipeline := list command.

(** The coroutine [pipe.execute()] of [redis.asyncio] (the client the
    service imports): when it runs, MULTI/EXEC applies the whole queue as
    one step of the server. *)
Definition execute (pipe : Pipeline) : M unit :=
  λ r, (foldl (λ r c, exec (run c) r) r pipe, tt).

(** Calling a coroutine function without [await] only builds the coroutine
    object; dropped, its body never runs, so nothing is sent and the store
    is as it was. *)
Definition not_awaited {A} (coroutine : M A) : M unit := ret tt.

(** ** The snapshots and result dictionaries of the service *)

(** The dictionary returned by [create_post] and [get_post]. *)
Record Post := mkPost {
  p_id : string;
  p_content : option string;
  p_created_at : option Z;
  p_ttl_seconds : Z;
  p_tags : list string;
  p_views : Z;
  p_recommendations : Z;
  p_reports : Z;
  p_status : PostStatus
}.

(** The dictionary returned by [recommend_post]; the blinded branch has no
    ["ttl_seconds"] key. *)
Record RecommendResult := mkRecommendResult {
  rec_success : bool;
  rec_recommendations : Z;
  rec_ttl_seconds : option Z;
  rec_message : option Message
}.

(** The dictionary returned by [report_post]. *)
Record ReportResult := mkReportResult {
  rep_success : bool;
  rep_reports : Z;
  rep_message : option Message
}.

(** Whether a recommend result announces an extension, and whether a report
    result announces the blinding: the message is the only place where the
    dictionaries carry these flags. *)
Definition extended (d : RecommendResult) : bool :=
  match rec_message d with
  | Some (msg_extended _ _) => true
  | _ => false
  end.

Definition blinded (d : ReportResult) : bool :=
  match rep_message d with
  | Some (msg_blinded _) => true
  | _ => false
  end.

(** The dictionary returned by [get_active_posts]. *)
Record ActivePosts := mkActivePosts {
  ap_posts : list Post;
  ap_total : Z;
  ap_page : Z;
  ap_per_page : Z
}.

(** An item of the list returned by [get_ranking]. *)
Record Ranked := mkRanked {
  rk_post : Post;
  rk_score : Z
}.

(** The ranking a request names: ["views"] or ["recs"]. *)
Inductive rank_type := rank_type_views | rank_type_recs.

(** ** app/services/redis_service.py *)

Module RedisService.
Section with_settings.

Variable settings : Settings.

(** The mapping that [create_post] builds for HSET. *)
Definition post_data (post_id : string) (now : Z) (content : string)
    (tags : list string) : Hash :=
  {| f_id := Some post_id;
     f_content := Some content;
     f_created_at := Some now;
     f_created_at_ts := Some now;
     f_tags := Some tags;
     f_views := Some 0;
     f_recommendations := Some 0;
     f_reports := Some 0;
     f_status := Some ACTIVE |}.

(** The commands [create_post] queues on its transactional pipeline. *)
Definition create_post_pipe (post_id : string) (now : Z) (content : string)
    (tags : list string) : Pipeline :=
  [ cmd_hset (post_key post_id) (post_data post_id now content tags);
    cmd_expire (post_key post_id) (post_default_ttl settings);
    cmd_zadd posts_active post_id now;
    cmd_zadd posts_expiring post_id (now + post_default_ttl settings) ].

(** [create_post].  [post_id] stands for the fresh uuid token and [now] for
    [datetime.utcnow().timestamp()].  The source calls [pipe.execute()] and
    does not await it; the two ZADDs on the ranking sets are awaited. *)
Definition create_post (post_id : string) (now : Z) (content : string)
    (tags : list string) : M Post :=
  let pipe := create_post_pipe post_id now content tags in
  not_awaited (execute pipe) ;;;
  ZADD posts_rank_views post_id 0 ;;;
  ZADD posts_rank_recs post_id 0 ;;;
  ret {| p_id := post_id;
         p_content := Some content;
         p_created_at := Some now;
         p_ttl_seconds := post_default_ttl settings;
         p_tags := tags;
         p_views := 0;
         p_recommendations := 0;
         p_reports := 0;
         p_status := ACTIVE |}.

(** The script of [_increment_view_atomic]. *)
Definition _increment_view_atomic (post_id : string) : M Z :=
  let KEYS1 := post_key post_id in
  views' <- HINCRBY KEYS1 views 1 ;;
  let post_id' := string_sub KEYS1 6 in
  ZINCRBY posts_rank_views 1 post_id' ;;;
  ret views'.

(** [get_post]: the hash is read before the view increment, and the
    ranking score is then set from that earlier read. *)
Definition get_post (post_id : string) : M (option Post) :=
  let key := post_key post_id in
  exists_ <- EXISTS key ;;
  if negb exists_ then ret None else
  post_data <- HGETALL key ;;
  _increment_view_atomic post_id ;;;
  ttl <- TTL key ;;
  let ttl_seconds := Z.max 0 ttl in
  let views := default 0 (f_views post_data) in
  ZADD posts_rank_views post_id views ;;;
  ret (Some {| p_id := post_id;
               p_content := f_content post_data;
               p_created_at := f_created_at post_data;
               p_ttl_seconds := ttl_seconds;
               p_tags := default [] (f_tags post_data);
               p_views := views;
               p_recommendations := default 0 (f_recommendations post_data);
               p_reports := default 0 (f_reports post_data);
               p_status := default ACTIVE (f_status post_data) |}).

(** RECOMMEND_SCRIPT, with KEYS[1] and ARGV[1..3]. *)
Definition RECOMMEND_SCRIPT (key : string)
    (threshold extension_ttl hall_of_fame_threshold : Z) : M (list reply) :=
  status <- HGET_status key ;;
  if decide (status = Some BLINDED) then
    recs <- HGET key recommendations ;;
    ret [RInt (-1); from_option RBulk RNil recs]
  else
    recs <- HINCRBY key recommendations 1 ;;
    let should_extend := bool_decide (lua_mod recs threshold = Some 0) in
    current_ttl <- TTL key ;;
    (if should_extend && bool_decide (0 < current_ttl)
     then EXPIRE key (current_ttl + extension_ttl)
     else ret tt) ;;;
    let post_id := string_sub key 6 in
    ZINCRBY posts_rank_recs 1 post_id ;;;
    ret [RInt recs; RInt current_ttl; if should_extend then RInt 1 else RNil].

(** [recommend_post]: the reply is unpacked into three names before the
    blinded marker is looked at. *)
Definition recommend_post (post_id : string) : M (result RecommendResult) :=
  let key := post_key post_id in
  result <- RECOMMEND_SCRIPT key
              (recommendation_extension_threshold settings)
              (recommendation_extension_ttl settings)
              (hall_of_fame_view_threshold settings) ;;
  ret match result with
      | [recs; current_ttl; should_extend] =>
          if decide (recs = RInt (-1)) then
            match int current_ttl with
            | Some n =>
                Ok {| rec_success := false;
                      rec_recommendations := n;
                      rec_ttl_seconds := None;
                      rec_message := Some msg_recommend_refused |}
            | None => Raise TypeError
            end
          else
            match recs, current_ttl with
            | RInt recs, RInt current_ttl =>
                let message :=
                  if truthy should_extend
                  then Some (msg_extended (recommendation_extension_threshold settings)
                                          (recommendation_extension_ttl settings `div` 60))
                  else None in
                let new_ttl :=
                  current_ttl + (if truthy should_extend
                                 then recommendation_extension_ttl settings else 0) in
                Ok {| rec_success := true;
                      rec_recommendations := recs;
                      rec_ttl_seconds := Some new_ttl;
                      rec_message := message |}
            | _, _ => Raise TypeError   (* the script puts integers there *)
            end
      | _ => Raise ValueError   (* not enough / too many values to unpack *)
      end.

(** REPORT_SCRIPT, with KEYS[1] and ARGV[1]. *)
Definition REPORT_SCRIPT (key : string) (blind_threshold : Z) : M (list reply) :=
  reports' <- HINCRBY key reports 1 ;;
  if decide (blind_threshold ≤ reports') then
    HSET_status key BLINDED ;;;
    ret [RInt reports'; RInt 1]
  else
    ret [RInt reports'; RNil].

Definition report_post (post_id : string) : M (result ReportResult) :=
  let key := post_key post_id in
  result <- REPORT_SCRIPT key (report_blind_threshold settings) ;;
  ret match result with
      | [RInt reports'; is_blinded] =>
          let message :=
            if truthy is_blinded
            then msg_blinded (report_blind_threshold settings)
            else msg_reported in
          Ok {| rep_success := true;
                rep_reports := reports';
                rep_message := Some message |}
      | [_; _] => Raise TypeError
      | _ => Raise ValueError
      end.

(** The ZREMs that [cleanup_expired_indexes] queues for its candidates. *)
Definition cleanup_pipe (expired_ids : list string) : Pipeline :=
  expired_ids ≫= λ post_id,
    [ cmd_zrem posts_active post_id;
      cmd_zrem posts_expiring post_id;
      cmd_zrem posts_rank_views post_id;
      cmd_zrem posts_rank_recs post_id ].

(** [cleanup_expired_indexes], [now] standing for the clock reading.  As
    in [create_post], [pipe.execute()] is called and not awaited. *)
Definition cleanup_expired_indexes (now : Z) : M unit :=
  expired_ids <- ZRANGEBYSCORE posts_expiring 0 now ;;
  match expired_ids with
  | [] => ret tt
  | _ =>
      let pipe := cleanup_pipe expired_ids in
      not_awaited (execute pipe)
  end.

(** The loop of [get_active_posts]: every id of the page is read with
    [get_post]; a post is kept when it was found and its status is
    active. *)
Fixpoint get_active_posts_loop (post_ids : list string) : M (list Post) :=
  match post_ids with
  | [] => ret []
  | post_id :: rest =>
      post <- get_post post_id ;;
      posts <- get_active_posts_loop rest ;;
      ret match post with
          | Some post => if decide (p_status post = ACTIVE) then post :: posts else posts
          | None => posts
          end
  end.

Definition get_active_posts (page per_page : Z) : M ActivePosts :=
  let offset := (page - 1) * per_page in
  post_ids <- ZREVRANGE posts_active offset (offset + per_page - 1) ;;
  posts <- get_active_posts_loop post_ids ;;
  total <- ZCARD posts_active ;;
  ret {| ap_posts := posts; ap_total := total; ap_page := page; ap_per_page := per_page |}.

(** [f"posts:rank:{rank_type}"]. *)
Definition rank_key (rank_type : rank_type) : zkey :=
  match rank_type with
  | rank_type_views => posts_rank_views
  | rank_type_recs => posts_rank_recs
  end.

(** The loop of [get_ranking]: an id whose post is not found is left out. *)
Fixpoint get_ranking_loop (post_ids : list (string * Z)) : M (list Ranked) :=
  match post_ids with
  | [] => ret []
  | (post_id, score) :: rest =>
      post <- get_post post_id ;;
      ranking <- get_ranking_loop rest ;;
      ret match post with
          | Some post => {| rk_post := post; rk_score := score |} :: ranking
          | None => ranking
          end
  end.

Definition get_ranking (rank_type : rank_type) (limit : Z) : M (list Ranked) :=
  post_ids <- ZREVRANGE_WITHSCORES (rank_key rank_type) 0 (limit - 1) ;;
  get_ranking_loop post_ids.

End with_settings.
End RedisService.

(** ** app/schemas/post.py: the response models

    Each constructor call validates the dictionary it is given and raises
    when a required field is missing or a bound is violated. *)

Record PostResponse := mkPostResponse {
  resp_id : string;
  resp_content : string;
  resp_created_at : Z;
  resp_ttl_seconds : Z;
  resp_tags : list string;
  resp_views : Z;
  resp_recommendations : Z;
  resp_reports : Z;
  resp_status : PostStatus
}.

Definition PostResponse_of (post : Post) : result PostResponse :=
  match p_content post, p_created_at post with
  | Some c, Some t =>
      if bool_decide (0 ≤ p_ttl_seconds post ∧ 0 ≤ p_views post
                      ∧ 0 ≤ p_recommendations post ∧ 0 ≤ p_reports post)
      then Ok {| resp_id := p_id post; resp_content := c; resp_created_at := t;
                 resp_ttl_seconds := p_ttl_seconds post; resp_tags := p_tags post;
                 resp_views := p_views post;
                 resp_recommendations := p_recommendations post;
                 resp_reports := p_reports post; resp_status := p_status post |}
      else Raise ValidationError
  | _, _ => Raise ValidationError
  end.

Record PostRecommendResponse := mkPostRecommendResponse {
  resp_success : bool;
  resp_recommendations' : Z;
  resp_ttl_seconds' : Z;
  resp_message : option Message
}.

Definition PostRecommendResponse_of (d : RecommendResult) : result PostRecommendResponse :=
  match rec_ttl_seconds d with
  | Some ttl =>
      Ok {| resp_success := rec_success d;
            resp_recommendations' := rec_recommendations d;
            resp_ttl_seconds' := ttl;
            resp_message := rec_message d |}
  | None => Raise ValidationError
  end.

Definition PostReportResponse_of (d : ReportResult) : result ReportResult := Ok d.

(** A list comprehension of constructor calls: the first one that raises
    ends it. *)
Fixpoint all_ok {A B} (f : A → result B) (l : list A) : result (list B) :=
  match l with
  | [] => Ok []
  | x :: l' =>
      match f x with
      | Ok y => match all_ok f l' with Ok ys => Ok (y :: ys) | Raise e => Raise e end
      | Raise e => Raise e
      end
  end.

Record PostListResponse := mkPostListResponse {
  list_posts : list PostResponse;
  list_total : Z;
  list_page : Z;
  list_per_page : Z
}.

Definition PostListResponse_of (d : ActivePosts) : result PostListResponse :=
  match all_ok PostResponse_of (ap_posts d) with
  | Ok posts =>
      Ok {| list_posts := posts; list_total := ap_total d;
            list_page := ap_page d; list_per_page := ap_per_page d |}
  | Raise e => Raise e
  end.

(** ** app/api/endpoints/posts.py *)

Inductive Response (A : Type) :=
| HTTP_200 (body : A)
| HTTP_404
| HTTP_500.
Arguments HTTP_200 {A} body.
Arguments HTTP_404 {A}.
Arguments HTTP_500 {A}.

(** [except Exception]: whatever the body raised becomes a 500. *)
Definition respond {A} (v : result A) : Response A :=
  match v with
  | Ok body => HTTP_200 body
  | Raise _ => HTTP_500
  end.

Module posts.
Section with_settings.

Variable settings : Settings.

Definition get_post (post_id : string) : M (Response PostResponse) :=
  post <- RedisService.get_post post_id ;;
  match post with
  | None => ret HTTP_404
  | Some post => ret (respond (PostResponse_of post))
  end.

Definition recommend_post (post_id : string) : M (Response PostRecommendResponse) :=
  post <- RedisService.get_post post_id ;;
  match post with
  | None => ret HTTP_404
  | Some _ =>
      result <- RedisService.recommend_post settings post_id ;;
      ret match result with
          | Ok d => respond (PostRecommendResponse_of d)
          | Raise _ => HTTP_500
          end
  end.

Definition report_post (post_id : string) : M (Response ReportResult) :=
  post <- RedisService.get_post post_id ;;
  match post with
  | None => ret HTTP_404
  | Some _ =>
      result <- RedisService.report_post settings post_id ;;
      ret match result with
          | Ok d => respond (PostReportResponse_of d)
          | Raise _ => HTTP_500
          end
  end.

Definition get_posts (page per_page : Z) : M (Response PostListResponse) :=
  let per_page := Z.min per_page 100 in
  result <- RedisService.get_active_posts page per_page ;;
  ret (respond (PostListResponse_of result)).

Definition get_ranking (rank_type : rank_type) (limit : Z)
    : M (Response (list PostResponse)) :=
  let limit := Z.min limit 50 in
  ranking <- RedisService.get_ranking rank_type limit ;;
  ret (respond (all_ok (λ item, PostResponse_of (rk_post item)) ranking)).

End with_settings.
End posts.

(** ** Reading the store *)

(** The hash stored for a post, its counters, and the scores of its index
    entries. *)
Definition lookup_post (post_id : string) (r : Redis) : option Entry :=
  keyspace r !! post_key post_id.

Definition stored (c : counter) (post_id : string) (r : Redis) : option Z :=
  lookup_post post_id r ≫= λ e, get_counter c (hash e).

Definition stored_status (post_id : string) (r : Redis) : option PostStatus :=
  lookup_post post_id r ≫= λ e, f_status (hash e).

Definition score (z : zkey) (post_id : string) (r : Redis) : option Z :=
  zset z r !! post_id.

(** What TTL answers for a post. *)
Definition remaining_ttl (post_id : string) (r : Redis) : Z :=
  eval (TTL (post_key post_id)) r.

(** A store holding one post and its four index entries, for examples. *)
Definition one_post (post_id : string) (h : Hash) (ttl : option Z)
    (created deadline : Z) : Redis :=
  {| keyspace := {[ post_key post_id := mkEntry h ttl ]};
     active := {[ post_id := created ]};
     expiring := {[ post_id := deadline ]};
     rank_views := {[ post_id := default 0 (f_views h) ]};
     rank_recs := {[ post_id := default 0 (f_recommendations h) ]} |}.

Definition sample_hash (v rc rp : Z) (s : PostStatus) : Hash :=
  {| f_id := Some "a"; f_content := Some "hello"; f_created_at := Some 1000;
     f_created_at_ts := Some 1000; f_tags := Some [];
     f_views := Some v; f_recommendations := Some rc; f_reports := Some rp;
     f_status := Some s |}.

(** ** Sequences of calls *)

(** [n] consecutive calls of one coroutine, with the values they return. *)
Fixpoint consecutive {A} (n : nat) (call : M A) : M (list A) :=
  match n with
  | O => ret []
  | S n' => a <- call ;; rest <- consecutive n' call ;; ret (a :: rest)
  end.

(** The operations of the service and the handlers built on them. *)
Inductive operation :=
| op_create (post_id : string) (now : Z) (content : string) (tags : list string)
| op_get (post_id : string)
| op_recommend (post_id : string)
| op_report (post_id : string)
| op_cleanup (now : Z)
| op_get_request (post_id : string)
| op_recommend_request (post_id : string)
| op_report_request (post_id : string).

Definition perform (settings : Settings) (op : operation) (r : Redis) : Redis :=
  match op with
  | op_create post_id now content tags =>
      exec (RedisService.create_post settings post_id now content tags) r
  | op_get post_id => exec (RedisService.get_post post_id) r
  | op_recommend post_id => exec (RedisService.recommend_post settings post_id) r
  | op_report post_id => exec (RedisService.report_post settings post_id) r
  | op_cleanup now => exec (RedisService.cleanup_expired_indexes now) r
  | op_get_request post_id => exec (posts.get_post post_id) r
  | op_recommend_request post_id => exec (posts.recommend_post settings post_id) r
  | op_report_request post_id => exec (posts.report_post settings post_id) r
  end.

(** ** Two statements of the specification, as it words them *)

(** Recommend, as specified: on an existing post that is not blinded the
    call succeeds with the incremented count, and it announces an extension
    with a time to live of default + extension exactly when the new count
    is a multiple of the threshold and the remaining time to live is
    positive. *)
Definition recommend_as_specified (settings : Settings) (post_id : string)
    (r : Redis) : Prop :=
  ∀ e, lookup_post post_id r = Some e →
       f_status (hash e) ≠ Some BLINDED →
       let n := default 0 (f_recommendations (hash e)) + 1 in
       ∃ d, eval (RedisService.recommend_post settings post_id) r = Ok d
            ∧ rec_success d = true
            ∧ rec_recommendations d = n
            ∧ ((extended d = true
                ∧ rec_ttl_seconds d =
                    Some (post_default_ttl settings
                          + recommendation_extension_ttl settings))
               ↔ (n `mod` recommendation_extension_threshold settings = 0
                  ∧ 0 < remaining_ttl post_id r)).

(** ** The views of a post across a call *)

(** The views a hash counts (a missing field counts as 0, as in HINCRBY
    and in [post_data.get("views", 0)]). *)
Definition views_of (e : Entry) : Z := default 0 (f_views (hash e)).

Definition no_entry : Entry := mkEntry empty_hash None.

(** The keyspace after a call on one post: as before, or without the
    post's key, or with the post's key rewritten and its views not lower. *)
Definition touches (post_id : string) (r r' : Redis) : Prop :=
  keyspace r' = keyspace r
  ∨ keyspace r' = delete (post_key post_id) (keyspace r)
  ∨ ∃ e', keyspace r' = <[post_key post_id := e']> (keyspace r)
          ∧ views_of (default no_entry (lookup_post post_id r)) ≤ views_of e'.

(** ** Sample stores *)

(** A post just created, at time 1000 with the default lifetime. *)
Definition fresh_post : Redis :=
  one_post "a" (sample_hash 0 0 0 ACTIVE) (Some 600) 1000 1600.

(** A post one recommendation short of the threshold, with 450 seconds
    left of its life. *)
Definition post_at_99 : Redis :=
  one_post "a" (sample_hash 0 99 0 ACTIVE) (Some 450) 1000 1600.

(** A post one recommendation short of the threshold whose whole lifetime
    is still ahead of it. *)
Definition new_post_at_99 : Redis :=
  one_post "a" (sample_hash 0 99 0 ACTIVE) (Some 600) 1000 1600.

(** A blinded post with five recommendations. *)
Definition blinded_post : Redis :=
  one_post "a" (sample_hash 3 5 50 BLINDED) (Some 450) 1000 1600.

(** ** Reading posts in bulk *)

(** The entry [get_post] leaves for an entry, and the dictionary it
    returns for it. *)
Definition viewed (e : Entry) : Entry :=
  mkEntry (set_counter views (views_of e + 1) (hash e)) (expire e).

Definition snapshot (post_id : string) (e : Entry) : Post :=
  {| p_id := post_id;
     p_content := f_content (hash e);
     p_created_at := f_created_at (hash e);
     p_ttl_seconds := Z.max 0 (default (-1) (expire e));
     p_tags := default [] (f_tags (hash e));
     p_views := views_of e;
     p_recommendations := default 0 (f_recommendations (hash e));
     p_reports := default 0 (f_reports (hash e));
     p_status := default ACTIVE (f_status (hash e)) |}.

(** The store after [get_post] on each id of a list, in turn. *)
Definition read_all (post_ids : list string) (r : Redis) : Redis :=
  foldl (λ r post_id, exec (RedisService.get_post post_id) r) r post_ids.

(** What the loop of [get_active_posts] adds for an id, and what the loop
    of [get_ranking] adds for an item, read off the store the call
    started from. *)
Definition listed (r : Redis) (post_id : string) : option Post :=
  e ← lookup_post post_id r;
  if decide (default ACTIVE (f_status (hash e)) = ACTIVE)
  then Some (snapshot post_id e) else None.

Definition ranked (r : Redis) (item : string * Z) : option Ranked :=
  e ← lookup_post item.1 r;
  Some {| rk_post := snapshot item.1 e; rk_score := item.2 |}.

(** Ranked items by score alone, highest first. *)
Definition by_score (a b : string * Z) : Prop := b.2 ≤ a.2.

(** ** Records across operations *)

Definition recs_of (e : Entry) : Z := default 0 (f_recommendations (hash e)).
Definition reports_of (e : Entry) : Z := default 0 (f_reports (hash e)).

(** How a record may differ after an operation: the text, the creation
    time and the tags are as they were, no counter is lower, and a blinded
    post is still blinded. *)
Definition grown (e e' : Entry) : Prop :=
  f_id (hash e') = f_id (hash e)
  ∧ f_content (hash e') = f_content (hash e)
  ∧ f_created_at (hash e') = f_created_at (hash e)
  ∧ f_tags (hash e') = f_tags (hash e)
  ∧ views_of e ≤ views_of e'
  ∧ recs_of e ≤ recs_of e'
  ∧ reports_of e ≤ reports_of e'
  ∧ (f_status (hash e) = Some BLINDED → f_status (hash e') = Some BLINDED).

(** ** The tagger, and every action on the store *)

(** A Python [str], as its code points. *)
Definition str := list N.

(** app/services/ai_service.py *)

(** What the call to the language model and the parse of its answer come
    to: the call (or anything after it but the parse) raises; the answer
    does not parse ([ast.literal_eval] raises ValueError or SyntaxError);
    it parses to something that is not a list; or it parses to a list of
    strings. *)
Inductive completion :=
| call_raises
| answer_malformed
| answer_not_a_list
| answer_list (tags : list str).

(** The fallback tag of [tag_post], a two-letter Korean word. *)
Definition fallback_tag : str := [44592; 53440]%N.

(** HSET of the field [tags_json], which is none of the nine fields a
    [Hash] holds: an existing key keeps its fields and its time to live; a
    missing key comes to exist, with none of the nine fields and no
    expiry. *)
Definition HSET_tags_json (key : string) : M unit :=
  λ r, (with_keyspace (<[key := default no_entry (keyspace r !! key)]> (keyspace r)) r, tt).

Module AIService.

Definition tag_post (post_id : string) (answer : completion) : M (list str) :=
  match answer with
  | call_raises => ret [fallback_tag]
  | answer_malformed =>
      HSET_tags_json (post_key post_id) ;;; ret [fallback_tag]
  | answer_not_a_list =>
      HSET_tags_json (post_key post_id) ;;; ret []
  | answer_list tags =>
      let tags := take 5 <$> filter (λ tag, tag ≠ []) tags in
      HSET_tags_json (post_key post_id) ;;; ret tags
  end.

End AIService.

(** Everything a client or the tagger can set off. *)
Inductive action :=
| act (op : operation)
| act_list (page per_page : Z)
| act_ranking (rank_type : rank_type) (limit : Z)
| act_tag (post_id : string) (answer : completion).

Definition run_action (settings : Settings) (a : action) (r : Redis) : Redis :=
  match a with
  | act op => perform settings op r
  | act_list page per_page => exec (posts.get_posts page per_page) r
  | act_ranking rank_type limit => exec (posts.get_ranking rank_type limit) r
  | act_tag post_id answer => exec (AIService.tag_post post_id answer) r
  end.

Definition run_actions (settings : Settings) (l : list action) (r : Redis) : Redis :=
  foldl (λ r a, run_action settings a r) r l.

(** ** app/schemas/post.py: PostCreate *)

(** What [str.strip()] takes for white space: the code points Python
    counts as spaces. *)
Definition isspace (c : N) : bool :=
  bool_decide ((9 ≤ c ≤ 13) ∨ (28 ≤ c ≤ 32) ∨ c = 133 ∨ c = 160 ∨ c = 5760
               ∨ (8192 ≤ c ≤ 8202) ∨ c = 8232 ∨ c = 8233 ∨ c = 8239 ∨ c = 8287
               ∨ c = 12288)%N.

Fixpoint lstrip (s : str) : str :=
  match s with
  | c :: s' => if isspace c then lstrip s' else s
  | [] => []
  end.

Definition rstrip (s : str) : str := reverse (lstrip (reverse s)).

Definition strip (s : str) : str := rstrip (lstrip s).

(** [PostCreate(content=...)]: the length bounds of the field are checked
    on the text as given; the validator then strips it and refuses what
    is left empty.  The result is the [content] of the model. *)
Definition PostCreate_of (content : str) : result str :=
  if decide (1 ≤ length content ≤ 200)%nat then
    let v := strip content in
    if decide (v = []) then Raise ValidationError else Ok v
  else Raise ValidationError.

(** ** More sample stores *)

(** Three ids in the indexes: "a" with an active record, "b" with a
    blinded one, "c" with none. *)
Definition three_ids : Redis :=
  {| keyspace := {[ post_key "a" := mkEntry (sample_hash 5 1 0 ACTIVE) (Some 100);
                    post_key "b" := mkEntry (sample_hash 7 2 60 BLINDED) (Some 100) ]};
     active := {[ "a" := 10; "b" := 20; "c" := 30 ]};
     expiring := {[ "a" := 110; "b" := 120; "c" := 130 ]};
     rank_views := {[ "a" := 5; "b" := 7; "c" := 9 ]};
     rank_recs := {[ "a" := 1; "b" := 2; "c" := 0 ]} |}.

(** A post one recommendation short of the threshold, with no expiry. *)
Definition eternal_at_99 : Redis :=
  one_post "a" (sample_hash 0 99 0 ACTIVE) None 1000 1600.

(** A post one report short of the blind threshold. *)
Definition post_at_49_reports : Redis :=
  one_post "a" (sample_hash 2 7 49 ACTIVE) (Some 450) 1000 1600.

(** * Properties *)

(** ** Keys *)

Lemma string_sub_post_key post_id : string_sub (post_key post_id) 6 = post_id.
Proof. reflexivity. Qed.

Lemma post_key_inj a b : post_key a = post_key b → a = b.
Proof. unfold post_key. intros H. by simplify_eq. Qed.

(** ** Commands on a key that is there, or is not *)

Lemma EXISTS_present key r e :
  keyspace r !! key = Some e → EXISTS key r = (r, true).
Proof.
  intros H. unfold EXISTS. f_equal. apply bool_decide_eq_true. rewrite H. eauto.
Qed.

Lemma EXISTS_absent key r :
  keyspace r !! key = None → EXISTS key r = (r, false).
Proof.
  intros H. unfold EXISTS. f_equal. apply bool_decide_eq_false. rewrite H.
  intros [? ?]. discriminate.
Qed.

(** ** Pipelines and sequences of calls *)

Lemma execute_app pipe1 pipe2 r :
  exec (execute (pipe1 ++ pipe2)) r = exec (execute pipe2) (exec (execute pipe1) r).
Proof. unfold exec, execute. simpl. apply foldl_app. Qed.

Lemma consecutive_S {A} n (call : M A) r :
  consecutive (S n) call r =
    (exec (consecutive n call) (exec call r),
     eval call r :: eval (consecutive n call) (exec call r)).
Proof.
  simpl. unfold bind, ret, exec, eval.
  destruct (call r) as [r1 a]. simpl.
  by destruct (consecutive n call r1).
Qed.

Lemma eval_consecutive_S {A} n (call : M A) r :
  eval (consecutive (S n) call) r =
    eval call r :: eval (consecutive n call) (exec call r).
Proof. unfold eval at 1. by rewrite consecutive_S. Qed.

Lemma exec_consecutive_S {A} n (call : M A) r :
  exec (consecutive (S n) call) r = exec (consecutive n call) (exec call r).
Proof. unfold exec at 1. by rewrite consecutive_S. Qed.

(** ** The service, call by call *)

Lemma get_post_present post_id r e :
  lookup_post post_id r = Some e →
  RedisService.get_post post_id r =
    (mkRedis
       (<[post_key post_id :=
            mkEntry (set_counter views (default 0 (f_views (hash e)) + 1) (hash e))
                    (expire e)]> (keyspace r))
       (active r) (expiring r)
       (<[post_id := default 0 (f_views (hash e))]> (rank_views r))
       (rank_recs r),
     Some {| p_id := post_id;
             p_content := f_content (hash e);
             p_created_at := f_created_at (hash e);
             p_ttl_seconds := Z.max 0 (default (-1) (expire e));
             p_tags := default [] (f_tags (hash e));
             p_views := default 0 (f_views (hash e));
             p_recommendations := default 0 (f_recommendations (hash e));
             p_reports := default 0 (f_reports (hash e));
             p_status := default ACTIVE (f_status (hash e)) |}).
Proof.
  unfold lookup_post. intros H.
  unfold RedisService.get_post, bind.
  rewrite (EXISTS_present _ _ _ H). simpl.
  unfold RedisService._increment_view_atomic, bind, HGETALL, HINCRBY, ZINCRBY, TTL, ZADD, ret.
  rewrite string_sub_post_key. simpl. rewrite H. simpl.
  rewrite lookup_insert_eq. simpl.
  unfold with_zset, with_keyspace. simpl.
  rewrite insert_insert_eq. reflexivity.
Qed.

Lemma get_post_absent post_id r :
  lookup_post post_id r = None → RedisService.get_post post_id r = (r, None).
Proof.
  unfold lookup_post. intros H. unfold RedisService.get_post, bind.
  by rewrite (EXISTS_absent _ _ H).
Qed.

Lemma get_post_lookup post_id r e :
  lookup_post post_id r = Some e →
  lookup_post post_id (exec (RedisService.get_post post_id) r)
    = Some (mkEntry (set_counter views (views_of e + 1) (hash e)) (expire e)).
Proof.
  intros Hk. unfold exec. rewrite (get_post_present _ _ _ Hk).
  unfold lookup_post. simpl. apply lookup_insert_eq.
Qed.

Lemma RECOMMEND_SCRIPT_blinded post_id T E H r e :
  lookup_post post_id r = Some e →
  f_status (hash e) = Some BLINDED →
  RedisService.RECOMMEND_SCRIPT (post_key post_id) T E H r =
    (r, [RInt (-1); from_option RBulk RNil (f_recommendations (hash e))]).
Proof.
  unfold lookup_post. intros Hk Hs.
  unfold RedisService.RECOMMEND_SCRIPT, bind, HGET_status, HGET, ret.
  rewrite Hk. simpl. rewrite Hs.
  rewrite decide_True by done. simpl. by rewrite Hk.
Qed.

Lemma RECOMMEND_SCRIPT_present post_id T E H r e :
  lookup_post post_id r = Some e →
  f_status (hash e) ≠ Some BLINDED →
  RedisService.RECOMMEND_SCRIPT (post_key post_id) T E H r =
    (mkRedis
       (if bool_decide (lua_mod (default 0 (f_recommendations (hash e)) + 1) T = Some 0)
           && bool_decide (0 < default (-1) (expire e))
        then if decide (default (-1) (expire e) + E ≤ 0)
             then delete (post_key post_id) (keyspace r)
             else <[post_key post_id :=
                      mkEntry (set_counter recommendations
                                 (default 0 (f_recommendations (hash e)) + 1) (hash e))
                              (Some (default (-1) (expire e) + E))]> (keyspace r)
        else <[post_key post_id :=
                 mkEntry (set_counter recommendations
                            (default 0 (f_recommendations (hash e)) + 1) (hash e))
                         (expire e)]> (keyspace r))
       (active r) (expiring r) (rank_views r)
       (<[post_id := default 0 (rank_recs r !! post_id) + 1]> (rank_recs r)),
     [RInt (default 0 (f_recommendations (hash e)) + 1);
      RInt (default (-1) (expire e));
      if bool_decide (lua_mod (default 0 (f_recommendations (hash e)) + 1) T = Some 0)
      then RInt 1 else RNil]).
Proof.
  unfold lookup_post. intros Hk Hs.
  set (n := default 0 (f_recommendations (hash e)) + 1).
  set (t := default (-1) (expire e)).
  set (h := set_counter recommendations n (hash e)).
  set (should_extend := bool_decide (lua_mod n T = Some 0)).
  unfold RedisService.RECOMMEND_SCRIPT, bind, HGET_status, ret.
  rewrite Hk. simpl.
  rewrite decide_False by done.
  unfold HINCRBY, TTL, ZINCRBY. rewrite Hk. simpl.
  rewrite lookup_insert_eq. simpl.
  fold n t h should_extend.
  destruct (should_extend && bool_decide (0 < t)) eqn:Hx.
  - unfold EXPIRE. simpl. rewrite lookup_insert_eq. simpl.
    destruct (decide (t + E ≤ 0)); simpl.
    + by rewrite delete_insert_eq.
    + by rewrite insert_insert_eq.
  - reflexivity.
Qed.

Lemma RECOMMEND_SCRIPT_absent post_id T E H r :
  lookup_post post_id r = None →
  exec (RedisService.RECOMMEND_SCRIPT (post_key post_id) T E H) r =
    mkRedis
      (<[post_key post_id := mkEntry (set_counter recommendations 1 empty_hash) None]>
         (keyspace r))
      (active r) (expiring r) (rank_views r)
      (<[post_id := default 0 (rank_recs r !! post_id) + 1]> (rank_recs r)).
Proof.
  unfold lookup_post. intros Hk.
  unfold exec, RedisService.RECOMMEND_SCRIPT, bind, HGET_status, ret.
  rewrite Hk. simpl.
  unfold HINCRBY, TTL, ZINCRBY. rewrite Hk. simpl.
  rewrite lookup_insert_eq. simpl.
  by rewrite andb_false_r.
Qed.

Lemma exec_recommend_post settings post_id r :
  exec (RedisService.recommend_post settings post_id) r =
    exec (RedisService.RECOMMEND_SCRIPT (post_key post_id)
            (recommendation_extension_threshold settings)
            (recommendation_extension_ttl settings)
            (hall_of_fame_view_threshold settings)) r.
Proof.
  unfold exec, RedisService.recommend_post, bind, ret.
  by destruct (RedisService.RECOMMEND_SCRIPT _ _ _ _ r).
Qed.

Lemma recommend_post_present settings post_id r e :
  lookup_post post_id r = Some e →
  f_status (hash e) ≠ Some BLINDED →
  default 0 (f_recommendations (hash e)) + 1 ≠ -1 →
  RedisService.recommend_post settings post_id r =
    (exec (RedisService.RECOMMEND_SCRIPT (post_key post_id)
             (recommendation_extension_threshold settings)
             (recommendation_extension_ttl settings)
             (hall_of_fame_view_threshold settings)) r,
     Ok {| rec_success := true;
           rec_recommendations := default 0 (f_recommendations (hash e)) + 1;
           rec_ttl_seconds :=
             Some (default (-1) (expire e)
                   + if bool_decide (lua_mod (default 0 (f_recommendations (hash e)) + 1)
                                       (recommendation_extension_threshold settings) = Some 0)
                     then recommendation_extension_ttl settings else 0);
           rec_message :=
             if bool_decide (lua_mod (default 0 (f_recommendations (hash e)) + 1)
                               (recommendation_extension_threshold settings) = Some 0)
             then Some (msg_extended (recommendation_extension_threshold settings)
                                     (recommendation_extension_ttl settings `div` 60))
             else None |}).
Proof.
  intros Hk Hs Hn. unfold RedisService.recommend_post, bind, exec.
  rewrite (RECOMMEND_SCRIPT_present _ _ _ _ _ _ Hk Hs). unfold ret. simpl.
  destruct (decide (RInt _ = RInt (-1))) as [[= ?]|_]; [lia|].
  by destruct (bool_decide _).
Qed.

Lemma recommend_post_blinded settings post_id r e :
  lookup_post post_id r = Some e →
  f_status (hash e) = Some BLINDED →
  RedisService.recommend_post settings post_id r = (r, Raise ValueError).
Proof.
  intros Hk Hs. unfold RedisService.recommend_post, bind.
  by rewrite (RECOMMEND_SCRIPT_blinded _ _ _ _ _ _ Hk Hs).
Qed.

Lemma lua_mod_multiple n T :
  0 < T → (lua_mod n T = Some 0 ↔ n `mod` T = 0).
Proof.
  intros HT. unfold lua_mod. rewrite decide_False by lia.
  split; [congruence | by intros ->].
Qed.

Lemma REPORT_SCRIPT_present post_id B r e :
  lookup_post post_id r = Some e →
  RedisService.REPORT_SCRIPT (post_key post_id) B r =
    (with_keyspace
       (<[post_key post_id :=
            mkEntry (if decide (B ≤ default 0 (f_reports (hash e)) + 1)
                     then set_status BLINDED
                            (set_counter reports (default 0 (f_reports (hash e)) + 1) (hash e))
                     else set_counter reports (default 0 (f_reports (hash e)) + 1) (hash e))
                    (expire e)]>
          (keyspace r)) r,
     [RInt (default 0 (f_reports (hash e)) + 1);
      if decide (B ≤ default 0 (f_reports (hash e)) + 1) then RInt 1 else RNil]).
Proof.
  unfold lookup_post. intros Hk.
  set (n := default 0 (f_reports (hash e)) + 1).
  set (h := set_counter reports n (hash e)).
  unfold RedisService.REPORT_SCRIPT, bind, HINCRBY, ret.
  rewrite Hk. simpl. fold n h.
  destruct (decide (B ≤ n)); [|done].
  unfold HSET_status, with_keyspace. simpl. rewrite lookup_insert_eq. simpl.
  by rewrite insert_insert_eq.
Qed.

Lemma REPORT_SCRIPT_absent post_id B r :
  lookup_post post_id r = None →
  ∃ h, f_views h = None
       ∧ exec (RedisService.REPORT_SCRIPT (post_key post_id) B) r =
           with_keyspace (<[post_key post_id := mkEntry h None]> (keyspace r)) r.
Proof.
  unfold lookup_post. intros Hk.
  unfold exec, RedisService.REPORT_SCRIPT, bind, HINCRBY, ret.
  rewrite Hk. simpl.
  destruct (decide (B ≤ _)).
  - unfold HSET_status, with_keyspace. simpl. rewrite lookup_insert_eq. simpl.
    rewrite insert_insert_eq. eexists. split; [|reflexivity]. reflexivity.
  - eexists. split; [|reflexivity]. reflexivity.
Qed.

Lemma exec_report_post settings post_id r :
  exec (RedisService.report_post settings post_id) r =
    exec (RedisService.REPORT_SCRIPT (post_key post_id)
            (report_blind_threshold settings)) r.
Proof.
  unfold exec, RedisService.report_post, bind, ret.
  by destruct (RedisService.REPORT_SCRIPT _ _ r).
Qed.

Lemma report_post_present settings post_id r e :
  lookup_post post_id r = Some e →
  RedisService.report_post settings post_id r =
    (with_keyspace
       (<[post_key post_id :=
            mkEntry (if decide (report_blind_threshold settings
                                ≤ default 0 (f_reports (hash e)) + 1)
                     then set_status BLINDED
                            (set_counter reports (default 0 (f_reports (hash e)) + 1) (hash e))
                     else set_counter reports (default 0 (f_reports (hash e)) + 1) (hash e))
                    (expire e)]>
          (keyspace r)) r,
     Ok {| rep_success := true;
           rep_reports := default 0 (f_reports (hash e)) + 1;
           rep_message :=
             Some (if decide (report_blind_threshold settings
                              ≤ default 0 (f_reports (hash e)) + 1)
                   then msg_blinded (report_blind_threshold settings)
                   else msg_reported) |}).
Proof.
  intros Hk. unfold RedisService.report_post, bind.
  rewrite (REPORT_SCRIPT_present _ _ _ _ Hk). unfold ret.
  by destruct (decide _).
Qed.

Lemma create_post_keyspace settings post_id now content tags r :
  keyspace (exec (RedisService.create_post settings post_id now content tags) r)
    = keyspace r.
Proof. reflexivity. Qed.

(** What the batch that [create_post] queues holds: the record with its
    lifetime and the entries of the active and the expiring index. *)
Lemma execute_create_post_pipe settings post_id now content tags r :
  0 < post_default_ttl settings →
  exec (execute (RedisService.create_post_pipe settings post_id now content tags)) r =
    mkRedis
      (<[post_key post_id :=
           mkEntry (RedisService.post_data post_id now content tags)
                   (Some (post_default_ttl settings))]> (keyspace r))
      (<[post_id := now]> (active r))
      (<[post_id := now + post_default_ttl settings]> (expiring r))
      (rank_views r) (rank_recs r).
Proof.
  intros Httl. unfold exec, execute, RedisService.create_post_pipe. simpl.
  unfold EXPIRE, HSET_mapping, ZADD, exec. simpl. rewrite lookup_insert_eq.
  rewrite decide_False by lia. simpl.
  by rewrite insert_insert_eq.
Qed.

Lemma cleanup_expired_indexes_unchanged now r :
  exec (RedisService.cleanup_expired_indexes now) r = r.
Proof.
  unfold exec, RedisService.cleanup_expired_indexes, bind, ZRANGEBYSCORE.
  by destruct (_.*1).
Qed.

(** ** The request handlers *)

Lemma exec_request_get post_id r :
  exec (posts.get_post post_id) r = exec (RedisService.get_post post_id) r.
Proof.
  unfold exec, posts.get_post, bind.
  destruct (RedisService.get_post post_id r) as [r1 [p|]]; done.
Qed.

Lemma exec_request_recommend settings post_id r e :
  lookup_post post_id r = Some e →
  exec (posts.recommend_post settings post_id) r =
    exec (RedisService.recommend_post settings post_id)
         (exec (RedisService.get_post post_id) r).
Proof.
  intros Hk. unfold exec at 1 3, posts.recommend_post, bind.
  rewrite (get_post_present _ _ _ Hk). unfold exec.
  by destruct (RedisService.recommend_post _ _ _).
Qed.

Lemma exec_request_report settings post_id r e :
  lookup_post post_id r = Some e →
  exec (posts.report_post settings post_id) r =
    exec (RedisService.report_post settings post_id)
         (exec (RedisService.get_post post_id) r).
Proof.
  intros Hk. unfold exec at 1 3, posts.report_post, bind.
  rewrite (get_post_present _ _ _ Hk). unfold exec.
  by destruct (RedisService.report_post _ _ _).
Qed.

Lemma request_absent_recommend settings post_id r :
  lookup_post post_id r = None →
  posts.recommend_post settings post_id r = (r, HTTP_404).
Proof.
  intros Hk. unfold posts.recommend_post, bind.
  by rewrite (get_post_absent _ _ Hk).
Qed.

Lemma request_absent_report settings post_id r :
  lookup_post post_id r = None →
  posts.report_post settings post_id r = (r, HTTP_404).
Proof.
  intros Hk. unfold posts.report_post, bind.
  by rewrite (get_post_absent _ _ Hk).
Qed.

(** ** What the mutations leave alone *)

Lemma recommend_post_indexes settings post_id r :
  let r' := exec (RedisService.recommend_post settings post_id) r in
  active r' = active r ∧ expiring r' = expiring r ∧ rank_views r' = rank_views r.
Proof.
  simpl. rewrite exec_recommend_post.
  destruct (lookup_post post_id r) as [e|] eqn:Hk.
  - destruct (decide (f_status (hash e) = Some BLINDED)) as [Hs|Hs]; unfold exec.
    + by rewrite (RECOMMEND_SCRIPT_blinded _ _ _ _ _ _ Hk Hs).
    + by rewrite (RECOMMEND_SCRIPT_present _ _ _ _ _ _ Hk Hs).
  - by rewrite (RECOMMEND_SCRIPT_absent _ _ _ _ _ Hk).
Qed.

Lemma report_post_indexes settings post_id r :
  let r' := exec (RedisService.report_post settings post_id) r in
  active r' = active r ∧ expiring r' = expiring r
  ∧ rank_views r' = rank_views r ∧ rank_recs r' = rank_recs r.
Proof.
  simpl. rewrite exec_report_post.
  destruct (lookup_post post_id r) as [e|] eqn:Hk.
  - unfold exec. by rewrite (REPORT_SCRIPT_present _ _ _ _ Hk).
  - by destruct (REPORT_SCRIPT_absent _ (report_blind_threshold settings) _ Hk)
      as (h & _ & ->).
Qed.

Lemma recommend_post_views settings post_id r e :
  lookup_post post_id r = Some e →
  0 ≤ recommendation_extension_ttl settings →
  stored views post_id (exec (RedisService.recommend_post settings post_id) r)
    = f_views (hash e).
Proof.
  intros Hk HE. rewrite exec_recommend_post. unfold stored, exec.
  destruct (decide (f_status (hash e) = Some BLINDED)) as [Hs|Hs].
  - rewrite (RECOMMEND_SCRIPT_blinded _ _ _ _ _ _ Hk Hs). simpl. by rewrite Hk.
  - rewrite (RECOMMEND_SCRIPT_present _ _ _ _ _ _ Hk Hs). unfold lookup_post. simpl.
    destruct (bool_decide (lua_mod _ _ = _)); simpl;
      [destruct (bool_decide (0 < _)) eqn:Ht; simpl|].
    + apply bool_decide_eq_true in Ht. rewrite decide_False by lia.
      by rewrite lookup_insert_eq.
    + by rewrite lookup_insert_eq.
    + by rewrite lookup_insert_eq.
Qed.

Lemma report_post_views settings post_id r e :
  lookup_post post_id r = Some e →
  stored views post_id (exec (RedisService.report_post settings post_id) r)
    = f_views (hash e).
Proof.
  intros Hk. rewrite exec_report_post. unfold stored, exec.
  rewrite (REPORT_SCRIPT_present _ _ _ _ Hk). unfold lookup_post. simpl.
  rewrite lookup_insert_eq. simpl. by destruct (decide _).
Qed.

(** ** Views never go down *)

Lemma touches_views post_id r r' :
  touches post_id r r' →
  ∀ post_id' e e',
    lookup_post post_id' r = Some e →
    lookup_post post_id' r' = Some e' →
    views_of e ≤ views_of e'.
Proof.
  unfold lookup_post.
  intros [Hks | [Hks | (e1 & Hks & Hle)]] post_id' e e' He He'; rewrite Hks in He'.
  - rewrite He in He'. by simplify_eq.
  - destruct (decide (post_key post_id = post_key post_id')) as [Heq|Hne].
    + rewrite Heq, lookup_delete_eq in He'. discriminate.
    + rewrite lookup_delete_ne in He' by done. rewrite He in He'. by simplify_eq.
  - destruct (decide (post_key post_id = post_key post_id')) as [Heq|Hne].
    + unfold lookup_post in Hle. rewrite Heq, He in Hle.
      rewrite Heq, lookup_insert_eq in He'. by simplify_eq.
    + rewrite lookup_insert_ne in He' by done. rewrite He in He'. by simplify_eq.
Qed.

Lemma get_post_touches post_id r :
  touches post_id r (exec (RedisService.get_post post_id) r).
Proof.
  unfold exec. destruct (lookup_post post_id r) as [e|] eqn:Hk.
  - rewrite (get_post_present _ _ _ Hk). simpl. right. right.
    eexists. split; [done|]. rewrite Hk. unfold views_of. simpl. lia.
  - rewrite (get_post_absent _ _ Hk). by left.
Qed.

Lemma get_post_keeps post_id r post_id' e :
  lookup_post post_id' r = Some e →
  ∃ e', lookup_post post_id' (exec (RedisService.get_post post_id) r) = Some e'
        ∧ views_of e ≤ views_of e'.
Proof.
  intros He. unfold exec. destruct (lookup_post post_id r) as [e0|] eqn:Hk.
  - rewrite (get_post_present _ _ _ Hk). unfold lookup_post in *. simpl.
    destruct (decide (post_key post_id = post_key post_id')) as [Heq|Hne].
    + rewrite Heq, He in Hk. rewrite Heq, lookup_insert_eq.
      eexists. split; [done|]. simplify_eq. unfold views_of. simpl. lia.
    + rewrite lookup_insert_ne by done. eauto with lia.
  - rewrite (get_post_absent _ _ Hk). simpl. eauto with lia.
Qed.

Lemma recommend_post_touches settings post_id r :
  touches post_id r (exec (RedisService.recommend_post settings post_id) r).
Proof.
  rewrite exec_recommend_post.
  destruct (lookup_post post_id r) as [e|] eqn:Hk.
  - destruct (decide (f_status (hash e) = Some BLINDED)) as [Hs|Hs].
    + unfold exec. rewrite (RECOMMEND_SCRIPT_blinded _ _ _ _ _ _ Hk Hs). by left.
    + unfold exec. rewrite (RECOMMEND_SCRIPT_present _ _ _ _ _ _ Hk Hs).
      unfold touches. rewrite Hk. simpl.
      destruct (_ && _); [destruct (decide _)|].
      * by right; left.
      * right. right. eexists. split; [done|]. unfold views_of. simpl. lia.
      * right. right. eexists. split; [done|]. unfold views_of. simpl. lia.
  - rewrite (RECOMMEND_SCRIPT_absent _ _ _ _ _ Hk).
    unfold touches. rewrite Hk. simpl.
    right. right. eexists. split; [done|]. unfold views_of. simpl. lia.
Qed.

Lemma report_post_touches settings post_id r :
  touches post_id r (exec (RedisService.report_post settings post_id) r).
Proof.
  rewrite exec_report_post.
  destruct (lookup_post post_id r) as [e|] eqn:Hk.
  - unfold exec. rewrite (REPORT_SCRIPT_present _ _ _ _ Hk).
    unfold touches. rewrite Hk. simpl. right. right.
    eexists. split; [done|]. unfold views_of. simpl. by destruct (decide _).
  - destruct (REPORT_SCRIPT_absent _ (report_blind_threshold settings) _ Hk)
      as (h & Hv & ->).
    unfold touches. rewrite Hk. simpl. right. right.
    eexists. split; [done|]. unfold views_of. simpl. by rewrite Hv.
Qed.

Lemma perform_views settings op r post_id e e' :
  lookup_post post_id r = Some e →
  lookup_post post_id (perform settings op r) = Some e' →
  views_of e ≤ views_of e'.
Proof.
  intros He He'. destruct op as [p now c t|p|p|p|now|p|p|p]; simpl in He'.
  - unfold lookup_post in *. rewrite create_post_keyspace in He'.
    rewrite He in He'. by simplify_eq.
  - eapply touches_views; [apply (get_post_touches p)|done..].
  - eapply touches_views; [apply (recommend_post_touches settings p)|done..].
  - eapply touches_views; [apply (report_post_touches settings p)|done..].
  - rewrite cleanup_expired_indexes_unchanged in He'. rewrite He in He'. by simplify_eq.
  - rewrite exec_request_get in He'.
    eapply touches_views; [apply (get_post_touches p)|done..].
  - destruct (lookup_post p r) as [e0|] eqn:Hk.
    + rewrite (exec_request_recommend _ _ _ _ Hk) in He'.
      destruct (get_post_keeps p r post_id e He) as (e1 & He1 & Hle).
      etrans; [exact Hle|].
      eapply touches_views; [apply (recommend_post_touches settings p)|done..].
    + unfold exec in He'. rewrite (request_absent_recommend _ _ _ Hk) in He'.
      simpl in He'. rewrite He in He'. by simplify_eq.
  - destruct (lookup_post p r) as [e0|] eqn:Hk.
    + rewrite (exec_request_report _ _ _ _ Hk) in He'.
      destruct (get_post_keeps p r post_id e He) as (e1 & He1 & Hle).
      etrans; [exact Hle|].
      eapply touches_views; [apply (report_post_touches settings p)|done..].
    + unfold exec in He'. rewrite (request_absent_report _ _ _ Hk) in He'.
      simpl in He'. rewrite He in He'. by simplify_eq.
Qed.

(** ** Create *)

(** C4: [create_post] on the empty store at time 1000 returns the snapshot
    the claim describes (zero counters, status active, lifetime 600), yet
    the store it leaves holds no record of the new post and no entry for
    it in the active or the expiring index: the batch that carries them is
    built and never sent.  Only the two ranking entries, written after the
    batch, are there, and a get request for the new post answers 404. *)
Theorem create_post_stores_no_record :
  p_id (eval (RedisService.create_post default_settings "p" 1000 "hi" []) empty_redis)
    = "p"
  ∧ p_views (eval (RedisService.create_post default_settings "p" 1000 "hi" []) empty_redis)
    = 0
  ∧ p_recommendations
      (eval (RedisService.create_post default_settings "p" 1000 "hi" []) empty_redis)
    = 0
  ∧ p_reports (eval (RedisService.create_post default_settings "p" 1000 "hi" []) empty_redis)
    = 0
  ∧ p_status (eval (RedisService.create_post default_settings "p" 1000 "hi" []) empty_redis)
    = ACTIVE
  ∧ p_ttl_seconds
      (eval (RedisService.create_post default_settings "p" 1000 "hi" []) empty_redis)
    = 600
  ∧ lookup_post "p"
      (exec (RedisService.create_post default_settings "p" 1000 "hi" []) empty_redis)
    = None
  ∧ score posts_active "p"
      (exec (RedisService.create_post default_settings "p" 1000 "hi" []) empty_redis)
    = None
  ∧ score posts_expiring "p"
      (exec (RedisService.create_post default_settings "p" 1000 "hi" []) empty_redis)
    = None
  ∧ score posts_rank_views "p"
      (exec (RedisService.create_post default_settings "p" 1000 "hi" []) empty_redis)
    = Some 0
  ∧ score posts_rank_recs "p"
      (exec (RedisService.create_post default_settings "p" 1000 "hi" []) empty_redis)
    = Some 0
  ∧ eval (posts.get_post "p")
      (exec (RedisService.create_post default_settings "p" 1000 "hi" []) empty_redis)
    = HTTP_404.
Proof. by vm_compute. Qed.

(** As the source has it, [create_post] leaves the record and the active
    and expiring indexes unwritten (the batch is built and never awaited);
    only the two ranking entries are set. *)
Theorem create_post_writes_only_rankings settings post_id now content tags r :
  exec (RedisService.create_post settings post_id now content tags) r =
    mkRedis (keyspace r) (active r) (expiring r)
            (<[post_id := 0]> (rank_views r)) (<[post_id := 0]> (rank_recs r)).
Proof. reflexivity. Qed.

(** ** Get *)

Lemma consecutive_gets post_id n :
  ∀ r e, lookup_post post_id r = Some e →
    stored views post_id (exec (consecutive (S n) (RedisService.get_post post_id)) r)
      = Some (views_of e + Z.of_nat (S n)).
Proof.
  induction n as [|n IH]; intros r e Hk; rewrite exec_consecutive_S.
  - unfold exec at 1. simpl. unfold stored. rewrite (get_post_lookup _ _ _ Hk).
    simpl. f_equal.
  - rewrite (IH _ _ (get_post_lookup _ _ _ Hk)). unfold views_of. simpl.
    f_equal. lia.
Qed.

(** C9: for a post in the store, [get_post] returns a snapshot whose
    [ttl_seconds] is max(0, TTL) for the time to live the store holds
    after the call (the one it held before), and leaves the stored views
    raised by 1, so that n calls in a row raise them by n; for an id not
    in the store the service returns None, the handler answers 404, and
    the store is as it was; and no operation of the service or request of
    the handlers leaves a post with fewer views than it had. *)
Theorem get_post_counts_a_view settings :
  (∀ post_id r e,
     lookup_post post_id r = Some e →
     let r' := exec (RedisService.get_post post_id) r in
     (∃ p, eval (RedisService.get_post post_id) r = Some p
           ∧ p_ttl_seconds p = Z.max 0 (remaining_ttl post_id r'))
     ∧ remaining_ttl post_id r' = remaining_ttl post_id r
     ∧ stored views post_id r' = Some (views_of e + 1)
     ∧ ∀ n, stored views post_id
              (exec (consecutive (S n) (RedisService.get_post post_id)) r)
            = Some (views_of e + Z.of_nat (S n)))
  ∧ (∀ post_id r,
       lookup_post post_id r = None →
       RedisService.get_post post_id r = (r, None)
       ∧ posts.get_post post_id r = (r, HTTP_404))
  ∧ (∀ op r post_id e e',
       lookup_post post_id r = Some e →
       lookup_post post_id (perform settings op r) = Some e' →
       views_of e ≤ views_of e').
Proof.
  split; [|split].
  - intros post_id r e Hk r'.
    pose proof (get_post_lookup _ _ _ Hk) as Hk'. fold r' in Hk'.
    split; [|split; [|split]].
    + unfold eval at 1. rewrite (get_post_present _ _ _ Hk).
      eexists. split; [done|]. simpl.
      unfold remaining_ttl, eval, TTL. unfold lookup_post in Hk'. by rewrite Hk'.
    + unfold remaining_ttl, eval, TTL. unfold lookup_post in *. by rewrite Hk', Hk.
    + unfold stored. by rewrite Hk'.
    + intros n. by apply consecutive_gets.
  - intros post_id r Hk. split; [by apply get_post_absent|].
    unfold posts.get_post, bind. by rewrite (get_post_absent _ _ Hk).
  - intros. by eapply perform_views.
Qed.

Lemma get_post_counts_a_view_witness :
  stored views "a" (exec (RedisService.get_post "a") fresh_post) = Some 1
  ∧ stored views "a"
      (exec (consecutive 3 (RedisService.get_post "a")) fresh_post) = Some 3
  ∧ posts.get_post "missing" fresh_post = (fresh_post, HTTP_404).
Proof.
  destruct (get_post_counts_a_view default_settings) as (Hget & Habsent & _).
  assert (lookup_post "a" fresh_post
          = Some (mkEntry (sample_hash 0 0 0 ACTIVE) (Some 600))) as H
    by (vm_compute; reflexivity).
  destruct (Hget "a" fresh_post _ H) as (_ & _ & Hv & Hn).
  split; [exact Hv|]. split; [exact (Hn 2%nat)|].
  apply Habsent. vm_compute. reflexivity.
Defined.

(** C5: a post with views 0 and view-ranking score 0 is read once:
    [get_post] leaves the stored views at 1 and the ranking score at 0. *)
Theorem get_post_leaves_rank_views_behind :
  stored views "a" fresh_post = Some 0
  ∧ score posts_rank_views "a" fresh_post = Some 0
  ∧ stored views "a" (exec (RedisService.get_post "a") fresh_post) = Some 1
  ∧ score posts_rank_views "a" (exec (RedisService.get_post "a") fresh_post) = Some 0.
Proof. vm_compute. done. Qed.

(** X2: on every existing post [get_post] leaves the stored views raised
    by 1 and the view-ranking score set to the views read before the
    increment. *)
Theorem get_post_rank_views post_id r e :
  lookup_post post_id r = Some e →
  let r' := exec (RedisService.get_post post_id) r in
  stored views post_id r' = Some (views_of e + 1)
  ∧ score posts_rank_views post_id r' = Some (views_of e).
Proof.
  intros Hk. simpl. unfold stored. rewrite (get_post_lookup _ _ _ Hk).
  split; [done|]. unfold exec, score. rewrite (get_post_present _ _ _ Hk).
  simpl. apply lookup_insert_eq.
Qed.

Lemma get_post_rank_views_witness :
  lookup_post "a" post_at_99 = Some (mkEntry (sample_hash 0 99 0 ACTIVE) (Some 450))
  ∧ score posts_rank_views "a" (exec (RedisService.get_post "a") post_at_99) = Some 0.
Proof.
  assert (lookup_post "a" post_at_99
          = Some (mkEntry (sample_hash 0 99 0 ACTIVE) (Some 450))) as H
    by (vm_compute; reflexivity).
  split; [exact H|].
  exact (proj2 (get_post_rank_views "a" post_at_99 _ H)).
Defined.

(** ** Recommend *)

(** C1, as amended: on an existing post that is not blinded, whose count is
    not negative and whose remaining time to live is positive (threshold
    positive, extension not negative), a recommend call succeeds with the
    count raised by 1, which is also the stored count; it announces an
    extension exactly when the new count is a multiple of the threshold;
    the time to live it reports, and the one the store then holds, is the
    remaining time to live plus the extension in that case and the
    remaining time to live otherwise. *)
Theorem recommend_counts_and_extends settings post_id r e ttl :
  lookup_post post_id r = Some e →
  f_status (hash e) ≠ Some BLINDED →
  0 ≤ default 0 (f_recommendations (hash e)) →
  expire e = Some ttl →
  0 < ttl →
  0 < recommendation_extension_threshold settings →
  0 ≤ recommendation_extension_ttl settings →
  let T := recommendation_extension_threshold settings in
  let E := recommendation_extension_ttl settings in
  let n := default 0 (f_recommendations (hash e)) + 1 in
  let r' := exec (RedisService.recommend_post settings post_id) r in
  ∃ d, eval (RedisService.recommend_post settings post_id) r = Ok d
       ∧ rec_success d = true
       ∧ rec_recommendations d = n
       ∧ stored recommendations post_id r' = Some n
       ∧ (extended d = true ↔ n `mod` T = 0)
       ∧ (n `mod` T = 0 →
            rec_ttl_seconds d = Some (ttl + E) ∧ remaining_ttl post_id r' = ttl + E)
       ∧ (n `mod` T ≠ 0 →
            rec_ttl_seconds d = Some ttl ∧ remaining_ttl post_id r' = ttl).
Proof.
  intros Hk Hs Hn Ht Hpos HT HE T E n r'.
  pose proof (recommend_post_present settings _ _ _ Hk Hs ltac:(lia)) as Hr.
  pose proof (RECOMMEND_SCRIPT_present post_id T E
                (hall_of_fame_view_threshold settings) _ _ Hk Hs) as Hsc.
  fold T E n in Hr, Hsc. rewrite Ht in Hr, Hsc. simpl in Hr, Hsc.
  rewrite (bool_decide_eq_true_2 (0 < ttl)) in Hsc by done.
  rewrite (decide_False (P := ttl + E ≤ 0)) in Hsc by lia.
  rewrite andb_true_r in Hsc.
  unfold r', exec, eval, remaining_ttl, stored, lookup_post, eval, TTL.
  rewrite Hr. unfold exec. rewrite Hsc. simpl.
  pose proof (lua_mod_multiple n T HT) as Hm.
  eexists. split; [done|]. simpl.
  destruct (bool_decide (lua_mod n T = Some 0)) eqn:Hb.
  - apply bool_decide_eq_true in Hb. apply Hm in Hb.
    rewrite lookup_insert_eq. simpl.
    repeat split; try done.
  - apply bool_decide_eq_false in Hb.
    assert (n `mod` T ≠ 0) by (intros ?; apply Hb; by apply Hm).
    rewrite lookup_insert_eq, Z.add_0_r. simpl.
    repeat split; try done.
Qed.

Lemma recommend_counts_and_extends_witness :
  lookup_post "a" new_post_at_99
    = Some (mkEntry (sample_hash 0 99 0 ACTIVE) (Some 600))
  ∧ ∃ d, eval (RedisService.recommend_post default_settings "a") new_post_at_99 = Ok d
         ∧ rec_recommendations d = 100
         ∧ extended d = true
         ∧ rec_ttl_seconds d = Some 900.
Proof.
  assert (lookup_post "a" new_post_at_99
          = Some (mkEntry (sample_hash 0 99 0 ACTIVE) (Some 600))) as H
    by (vm_compute; reflexivity).
  split; [exact H|].
  destruct (recommend_counts_and_extends default_settings "a" new_post_at_99 _ 600 H)
    as (d & Hd & _ & Hn & _ & Hx & Hm & _);
    [ discriminate | simpl; lia | reflexivity | lia | simpl; lia | simpl; lia | ].
  exists d. split; [exact Hd|]. split; [exact Hn|].
  split; [apply Hx; reflexivity|].
  apply Hm. reflexivity.
Defined.

(** C1, as specified, fails on a post at 99 recommendations with 450
    seconds left: the 100th recommendation is announced with 750 seconds,
    not with default + extension = 900. *)
Lemma recommend_reports_remaining_plus_extension :
  ¬ recommend_as_specified default_settings "a" post_at_99.
Proof.
  intros H.
  destruct (H (mkEntry (sample_hash 0 99 0 ACTIVE) (Some 450)))
    as (d & Hd & _ & _ & Hiff).
  - vm_compute. reflexivity.
  - discriminate.
  - vm_compute in Hd. injection Hd as <-.
    destruct Hiff as [_ Hback].
    destruct Hback as [_ Httl]; [split; vm_compute; reflexivity|].
    vm_compute in Httl. discriminate.
Qed.

(** C2: on a blinded post with five recommendations the script answers with
    two values, the marker -1 and the count, and leaves the count at five;
    [recommend_post] unpacks three, so the call raises ValueError and the
    request handler answers 500. *)
Theorem recommend_blinded_raises :
  eval (RedisService.recommend_post default_settings "a") blinded_post = Raise ValueError
  ∧ eval (posts.recommend_post default_settings "a") blinded_post = HTTP_500
  ∧ eval (RedisService.RECOMMEND_SCRIPT (post_key "a") 100 300 100000) blinded_post
    = [RInt (-1); RBulk 5]
  ∧ stored recommendations "a"
      (exec (RedisService.recommend_post default_settings "a") blinded_post) = Some 5.
Proof. vm_compute. done. Qed.

(** X3: on every blinded post the service's [recommend_post] raises
    ValueError and leaves the store as it was, and the recommend request
    answers 500. *)
Theorem recommend_blinded_always_raises settings post_id r e :
  lookup_post post_id r = Some e →
  f_status (hash e) = Some BLINDED →
  RedisService.recommend_post settings post_id r = (r, Raise ValueError)
  ∧ eval (posts.recommend_post settings post_id) r = HTTP_500.
Proof.
  intros Hk Hs. split; [by apply recommend_post_blinded with e|].
  unfold eval, posts.recommend_post, bind.
  rewrite (get_post_present _ _ _ Hk).
  rewrite (recommend_post_blinded settings post_id _
             (mkEntry (set_counter views (views_of e + 1) (hash e)) (expire e)));
    [done| |done].
  unfold lookup_post. simpl. apply lookup_insert_eq.
Qed.

Lemma recommend_blinded_always_raises_witness :
  lookup_post "a" blinded_post = Some (mkEntry (sample_hash 3 5 50 BLINDED) (Some 450))
  ∧ RedisService.recommend_post default_settings "a" blinded_post
    = (blinded_post, Raise ValueError).
Proof.
  assert (lookup_post "a" blinded_post
          = Some (mkEntry (sample_hash 3 5 50 BLINDED) (Some 450))) as H
    by (vm_compute; reflexivity).
  split; [exact H|].
  exact (proj1 (recommend_blinded_always_raises default_settings "a" blinded_post _ H
                  eq_refl)).
Defined.

(** C6: a post created at 1000 with 600 seconds to live has its deadline
    1600 in the expiring index; its 100th recommendation raises the time
    to live to 900 and leaves the index score at 1600. *)
Theorem extension_leaves_expiring_score :
  remaining_ttl "a" new_post_at_99 = 600
  ∧ score posts_expiring "a" new_post_at_99 = Some 1600
  ∧ remaining_ttl "a" (exec (RedisService.recommend_post default_settings "a") new_post_at_99)
    = 900
  ∧ score posts_expiring "a"
      (exec (RedisService.recommend_post default_settings "a") new_post_at_99)
    = Some 1600.
Proof. vm_compute. done. Qed.

(** X4: a recommendation never changes the expiring index, extension or
    not. *)
Theorem recommend_keeps_expiring_index settings post_id r :
  expiring (exec (RedisService.recommend_post settings post_id) r) = expiring r.
Proof. by destruct (recommend_post_indexes settings post_id r) as (_ & -> & _). Qed.

(** X5: called on an id with no record, the service's [recommend_post]
    (the handler never does this: it reads the post first) succeeds and
    leaves a record behind that holds one recommendation and never
    expires. *)
Theorem recommend_post_on_absent_id settings post_id r :
  lookup_post post_id r = None →
  let r' := exec (RedisService.recommend_post settings post_id) r in
  lookup_post post_id r'
    = Some (mkEntry (set_counter recommendations 1 empty_hash) None)
  ∧ score posts_rank_recs post_id r'
    = Some (default 0 (score posts_rank_recs post_id r) + 1)
  ∧ ∃ d, eval (RedisService.recommend_post settings post_id) r = Ok d
         ∧ rec_success d = true
         ∧ rec_recommendations d = 1.
Proof.
  intros Hk. simpl. rewrite exec_recommend_post.
  rewrite (RECOMMEND_SCRIPT_absent _ _ _ _ _ Hk).
  unfold lookup_post, score. simpl. rewrite !lookup_insert_eq.
  split; [done|]. split; [done|].
  unfold lookup_post in Hk.
  unfold eval, RedisService.recommend_post, RedisService.RECOMMEND_SCRIPT,
    bind, HGET_status, ret.
  rewrite Hk. simpl.
  unfold HINCRBY, TTL, ZINCRBY. rewrite Hk. simpl.
  rewrite lookup_insert_eq. simpl. rewrite andb_false_r. simpl.
  eexists. split; [done|]. done.
Qed.

Lemma recommend_post_on_absent_id_witness :
  lookup_post "ghost" empty_redis = None
  ∧ lookup_post "ghost"
      (exec (RedisService.recommend_post default_settings "ghost") empty_redis)
    = Some (mkEntry (set_counter recommendations 1 empty_hash) None).
Proof.
  assert (lookup_post "ghost" empty_redis = None) as H by (vm_compute; reflexivity).
  split; [exact H|].
  exact (proj1 (recommend_post_on_absent_id default_settings "ghost" empty_redis H)).
Defined.

(** ** Report *)

Lemma consecutive_reports settings post_id k :
  ∀ r e, lookup_post post_id r = Some e →
  ∀ i, (i < k)%nat →
    ∃ d, eval (consecutive k (RedisService.report_post settings post_id)) r !! i
           = Some (Ok d)
         ∧ rep_reports d = default 0 (f_reports (hash e)) + Z.of_nat i + 1
         ∧ (blinded d = true
            ↔ report_blind_threshold settings
              ≤ default 0 (f_reports (hash e)) + Z.of_nat i + 1).
Proof.
  induction k as [|k IH]; intros r e Hk i Hi; [lia|].
  rewrite eval_consecutive_S.
  pose proof (report_post_present settings _ _ _ Hk) as Hr.
  destruct i as [|i].
  - simpl. unfold eval. rewrite Hr. simpl. eexists. split; [done|]. simpl.
    split; [lia|]. unfold blinded. simpl.
    change (Z.of_nat 0) with 0. rewrite Z.add_0_r.
    destruct (decide _); split; (done || lia).
  - simpl.
    set (r1 := exec (RedisService.report_post settings post_id) r).
    assert (∃ e1, lookup_post post_id r1 = Some e1
                  ∧ default 0 (f_reports (hash e1)) = default 0 (f_reports (hash e)) + 1)
      as (e1 & Hk1 & Hc1).
    { unfold r1, exec. rewrite Hr. simpl. unfold lookup_post. simpl.
      rewrite lookup_insert_eq. eexists. split; [done|].
      simpl. by destruct (decide _). }
    destruct (IH r1 e1 Hk1 i ltac:(lia)) as (d & Hd & Hn & Hb).
    exists d. split; [done|]. rewrite Hn, Hc1. split; [lia|].
    rewrite Hb, Hc1. split; lia.
Qed.

(** C3: on an existing post a report call adds 1 to [reports]; the script's
    flag, and with it the blinded message of the call, is set exactly when
    the new count has reached the blind threshold; the status is set to
    blinded by that same script run; a post already blinded stays blinded
    while its reports keep growing; and in any run of consecutive reports
    the i-th call (counted from 0) returns the count raised by i+1 and is
    flagged exactly when that count has reached the threshold, so from 0
    and with threshold 50 the flag first shows on the 50th call. *)
Theorem report_counts_and_blinds_at_threshold settings post_id r e :
  lookup_post post_id r = Some e →
  let B := report_blind_threshold settings in
  let n := default 0 (f_reports (hash e)) + 1 in
  let r' := exec (RedisService.report_post settings post_id) r in
  eval (RedisService.REPORT_SCRIPT (post_key post_id) B) r
    = [RInt n; if decide (B ≤ n) then RInt 1 else RNil]
  ∧ exec (RedisService.REPORT_SCRIPT (post_key post_id) B) r = r'
  ∧ (∃ d, eval (RedisService.report_post settings post_id) r = Ok d
          ∧ rep_success d = true
          ∧ rep_reports d = n
          ∧ (blinded d = true ↔ B ≤ n))
  ∧ stored reports post_id r' = Some n
  ∧ (B ≤ n → stored_status post_id r' = Some BLINDED)
  ∧ (n < B → stored_status post_id r' = f_status (hash e))
  ∧ (f_status (hash e) = Some BLINDED → stored_status post_id r' = Some BLINDED)
  ∧ (∀ k i, (i < k)%nat →
       ∃ d, eval (consecutive k (RedisService.report_post settings post_id)) r !! i
              = Some (Ok d)
            ∧ rep_reports d = n + Z.of_nat i
            ∧ (blinded d = true ↔ B ≤ n + Z.of_nat i)).
Proof.
  intros Hk B n r'.
  pose proof (report_post_present settings _ _ _ Hk) as Hr.
  pose proof (REPORT_SCRIPT_present post_id B _ _ Hk) as Hs.
  fold B n in Hr, Hs.
  assert (lookup_post post_id r' =
            Some (mkEntry (if decide (B ≤ n)
                           then set_status BLINDED (set_counter reports n (hash e))
                           else set_counter reports n (hash e)) (expire e))) as Hk'.
  { unfold r', exec. rewrite Hr. unfold lookup_post. simpl. apply lookup_insert_eq. }
  split; [by unfold eval; rewrite Hs|].
  split; [by unfold r', exec; rewrite Hs, Hr|].
  split.
  { eexists. split; [by unfold eval; rewrite Hr|]. simpl.
    repeat split; try done; unfold blinded; simpl; destruct (decide (B ≤ n)); done. }
  unfold stored, stored_status. rewrite Hk'. simpl.
  split; [by destruct (decide (B ≤ n))|].
  split; [intros; by rewrite decide_True|].
  split; [intros; by rewrite decide_False by lia|].
  split; [intros; by destruct (decide (B ≤ n))|].
  intros k i Hi.
  destruct (consecutive_reports settings post_id k r e Hk i Hi) as (d & Hd & Hn & Hb).
  exists d. split; [done|]. fold B in Hb. split; [unfold n; lia|].
  rewrite Hb. unfold n. split; lia.
Qed.

Lemma report_counts_and_blinds_at_threshold_witness :
  lookup_post "a" fresh_post
    = Some (mkEntry (sample_hash 0 0 0 ACTIVE) (Some 600))
  ∧ stored reports "a" (exec (RedisService.report_post default_settings "a") fresh_post)
    = Some 1
  ∧ (∃ d, eval (consecutive 50 (RedisService.report_post default_settings "a")) fresh_post
            !! 49%nat = Some (Ok d)
          ∧ rep_reports d = 50
          ∧ blinded d = true)
  ∧ (∃ d, eval (consecutive 50 (RedisService.report_post default_settings "a")) fresh_post
            !! 48%nat = Some (Ok d)
          ∧ rep_reports d = 49
          ∧ blinded d ≠ true).
Proof.
  assert (lookup_post "a" fresh_post
          = Some (mkEntry (sample_hash 0 0 0 ACTIVE) (Some 600))) as H
    by (vm_compute; reflexivity).
  split; [exact H|].
  destruct (report_counts_and_blinds_at_threshold default_settings "a" fresh_post _ H)
    as (_ & _ & _ & Hst & _ & _ & _ & Hseq).
  split; [exact Hst|]. split.
  - destruct (Hseq 50%nat 49%nat ltac:(lia)) as (d & Hd & Hn & Hb).
    exists d. split; [exact Hd|]. split; [rewrite Hn; reflexivity|].
    apply Hb. simpl. lia.
  - destruct (Hseq 50%nat 48%nat ltac:(lia)) as (d & Hd & Hn & Hb).
    exists d. split; [exact Hd|]. split; [rewrite Hn; reflexivity|].
    intros Hx. apply Hb in Hx. simpl in Hx. lia.
Defined.

(** ** Requests on a missing post, requests on an existing one *)

(** C8: for an id with no record in the store, the recommend request and
    the report request both answer 404 and leave the store exactly as it
    was. *)
Theorem absent_post_is_not_found settings post_id r :
  lookup_post post_id r = None →
  posts.recommend_post settings post_id r = (r, HTTP_404)
  ∧ posts.report_post settings post_id r = (r, HTTP_404).
Proof.
  intros Hk. split.
  - by apply request_absent_recommend.
  - by apply request_absent_report.
Qed.

Lemma absent_post_is_not_found_witness :
  lookup_post "nonexistent_post" fresh_post = None
  ∧ posts.recommend_post default_settings "nonexistent_post" fresh_post
    = (fresh_post, HTTP_404)
  ∧ posts.report_post default_settings "nonexistent_post" fresh_post
    = (fresh_post, HTTP_404).
Proof.
  assert (lookup_post "nonexistent_post" fresh_post = None) as H
    by (vm_compute; reflexivity).
  split; [exact H|].
  exact (absent_post_is_not_found default_settings "nonexistent_post" fresh_post H).
Defined.

(** C10: on an existing post, the store a recommend request leaves is the
    one the service's recommend leaves after a full [get_post], and
    likewise for a report request; so after either request the stored
    views are one higher than before, and the post's entry in the
    view ranking is the one [get_post] leaves (extension not negative). *)
Theorem mutation_requests_count_a_view settings post_id r e :
  lookup_post post_id r = Some e →
  0 ≤ recommendation_extension_ttl settings →
  let viewed := exec (RedisService.get_post post_id) r in
  let recommended := exec (posts.recommend_post settings post_id) r in
  let reported := exec (posts.report_post settings post_id) r in
  recommended = exec (RedisService.recommend_post settings post_id) viewed
  ∧ reported = exec (RedisService.report_post settings post_id) viewed
  ∧ stored views post_id viewed = Some (views_of e + 1)
  ∧ stored views post_id recommended = Some (views_of e + 1)
  ∧ stored views post_id reported = Some (views_of e + 1)
  ∧ score posts_rank_views post_id recommended = score posts_rank_views post_id viewed
  ∧ score posts_rank_views post_id reported = score posts_rank_views post_id viewed.
Proof.
  intros Hk HE viewed recommended reported.
  pose proof (get_post_lookup _ _ _ Hk) as Hv. fold viewed in Hv.
  assert (recommended = exec (RedisService.recommend_post settings post_id) viewed)
    as Hrec by (by apply exec_request_recommend with e).
  assert (reported = exec (RedisService.report_post settings post_id) viewed)
    as Hrep by (by apply exec_request_report with e).
  split; [done|]. split; [done|].
  split; [unfold stored; by rewrite Hv|].
  split; [rewrite Hrec; by rewrite (recommend_post_views _ _ _ _ Hv HE)|].
  split; [rewrite Hrep; by rewrite (report_post_views _ _ _ _ Hv)|].
  unfold score. simpl. rewrite Hrec, Hrep.
  destruct (recommend_post_indexes settings post_id viewed) as (_ & _ & ->).
  by destruct (report_post_indexes settings post_id viewed) as (_ & _ & -> & _).
Qed.

Lemma mutation_requests_count_a_view_witness :
  lookup_post "a" fresh_post = Some (mkEntry (sample_hash 0 0 0 ACTIVE) (Some 600))
  ∧ stored views "a" (exec (posts.recommend_post default_settings "a") fresh_post)
    = Some 1
  ∧ stored views "a" (exec (posts.report_post default_settings "a") fresh_post)
    = Some 1.
Proof.
  assert (lookup_post "a" fresh_post
          = Some (mkEntry (sample_hash 0 0 0 ACTIVE) (Some 600))) as H
    by (vm_compute; reflexivity).
  split; [exact H|].
  destruct (mutation_requests_count_a_view default_settings "a" fresh_post _ H)
    as (_ & _ & _ & Hrec & Hrep & _); [simpl; lia|].
  split; [exact Hrec | exact Hrep].
Defined.

(** ** The sweep *)

(** C7: the deadline 1600 of post "a" has passed at time 2000 and the
    sweep finds it as a candidate, yet after the sweep "a" is still in all
    four indexes: the store is the one the sweep started from. *)
Theorem cleanup_removes_nothing :
  eval (ZRANGEBYSCORE posts_expiring 0 2000) fresh_post = ["a"]
  ∧ exec (RedisService.cleanup_expired_indexes 2000) fresh_post = fresh_post
  ∧ score posts_active "a" (exec (RedisService.cleanup_expired_indexes 2000) fresh_post)
    = Some 1000
  ∧ score posts_expiring "a" (exec (RedisService.cleanup_expired_indexes 2000) fresh_post)
    = Some 1600
  ∧ score posts_rank_views "a" (exec (RedisService.cleanup_expired_indexes 2000) fresh_post)
    = Some 0
  ∧ score posts_rank_recs "a" (exec (RedisService.cleanup_expired_indexes 2000) fresh_post)
    = Some 0.
Proof.
  split; [by vm_compute|].
  rewrite cleanup_expired_indexes_unchanged.
  split; [done|]. by vm_compute.
Qed.

(** As the source has it, the sweep changes nothing, whatever the store
    and the time. *)
Theorem sweep_changes_nothing now r :
  exec (RedisService.cleanup_expired_indexes now) r = r.
Proof. apply cleanup_expired_indexes_unchanged. Qed.

Lemma execute_cleanup_pipe_keyspace ids :
  ∀ r, keyspace (exec (execute (RedisService.cleanup_pipe ids)) r) = keyspace r.
Proof.
  induction ids as [|a ids IH]; intros r; [done|].
  change (RedisService.cleanup_pipe (a :: ids))
    with ([cmd_zrem posts_active a; cmd_zrem posts_expiring a;
           cmd_zrem posts_rank_views a; cmd_zrem posts_rank_recs a]
          ++ RedisService.cleanup_pipe ids).
  rewrite execute_app, IH. reflexivity.
Qed.

Lemma execute_cleanup_pipe_score ids z post_id :
  ∀ r, score z post_id (exec (execute (RedisService.cleanup_pipe ids)) r)
       = if decide (post_id ∈ ids) then None else score z post_id r.
Proof.
  induction ids as [|a ids IH]; intros r.
  - rewrite decide_False by (rewrite elem_of_nil; tauto). reflexivity.
  - change (RedisService.cleanup_pipe (a :: ids))
      with ([cmd_zrem posts_active a; cmd_zrem posts_expiring a;
             cmd_zrem posts_rank_views a; cmd_zrem posts_rank_recs a]
            ++ RedisService.cleanup_pipe ids).
    rewrite execute_app, IH.
    destruct (decide (post_id ∈ ids)) as [Hin|Hin].
    + rewrite decide_True by (rewrite elem_of_cons; by right). reflexivity.
    + destruct (decide (post_id = a)) as [->|Hne].
      * rewrite decide_True by (rewrite elem_of_cons; by left).
        unfold score. destruct z; simpl; apply lookup_delete_eq.
      * rewrite decide_False by (intros [?|?]%elem_of_cons; done).
        unfold score. destruct z; simpl; by apply lookup_delete_ne.
Qed.

Lemma ZRANGEBYSCORE_elem z lo hi r post_id :
  post_id ∈ eval (ZRANGEBYSCORE z lo hi) r
  ↔ ∃ s, score z post_id r = Some s ∧ lo ≤ s ≤ hi.
Proof.
  unfold eval, ZRANGEBYSCORE, score. simpl.
  rewrite list_elem_of_fmap. split.
  - intros ([k s] & -> & Hin). apply elem_of_map_to_list in Hin.
    apply map_lookup_filter_Some in Hin as [Hs Hp]. simpl in *. eauto.
  - intros (s & Hs & Hp). exists (post_id, s). split; [done|].
    apply elem_of_map_to_list. by apply map_lookup_filter_Some.
Qed.

(** X7: the store the sweep's batch leaves when it is executed: no record
    is touched, every id whose deadline lies in [0, now] is gone from all
    four indexes, and an id with no deadline there keeps all its
    entries. *)
Theorem cleanup_batch_prunes_expired now r :
  let swept :=
    exec (execute (RedisService.cleanup_pipe
                     (eval (ZRANGEBYSCORE posts_expiring 0 now) r))) r in
  keyspace swept = keyspace r
  ∧ (∀ post_id s,
       score posts_expiring post_id r = Some s → 0 ≤ s ≤ now →
       ∀ z, score z post_id swept = None)
  ∧ (∀ post_id,
       (∀ s, score posts_expiring post_id r = Some s → s < 0 ∨ now < s) →
       ∀ z, score z post_id swept = score z post_id r).
Proof.
  simpl. split; [apply execute_cleanup_pipe_keyspace|]. split.
  - intros post_id s Hs Hrange z. rewrite execute_cleanup_pipe_score.
    rewrite decide_True; [done|]. apply ZRANGEBYSCORE_elem. eauto.
  - intros post_id Hfuture z. rewrite execute_cleanup_pipe_score.
    rewrite decide_False; [done|].
    intros (s & Hs & Hrange)%ZRANGEBYSCORE_elem.
    destruct (Hfuture s Hs); lia.
Qed.

Lemma cleanup_batch_prunes_expired_witness :
  score posts_expiring "a" fresh_post = Some 1600
  ∧ 0 ≤ 1600 ≤ 2000
  ∧ score posts_active "a"
      (exec (execute (RedisService.cleanup_pipe
                        (eval (ZRANGEBYSCORE posts_expiring 0 2000) fresh_post)))
            fresh_post) = None.
Proof.
  assert (score posts_expiring "a" fresh_post = Some 1600) as H
    by (vm_compute; reflexivity).
  assert (0 ≤ 1600 ≤ 2000) as Hr by lia.
  split; [exact H|]. split; [exact Hr|].
  destruct (cleanup_batch_prunes_expired 2000 fresh_post) as (_ & Hgone & _).
  exact (Hgone "a" 1600 H Hr posts_active).
Defined.

(** ** Ranges of a sorted set *)

Lemma range_by_rank_sublist {A} (l : list A) start stop :
  sublist (range_by_rank l start stop) l.
Proof.
  unfold range_by_rank. destruct (decide (_ ∨ _)); [apply sublist_nil_l|].
  etrans; [apply sublist_take | apply sublist_drop].
Qed.

Lemma range_by_rank_length {A} (l : list A) start stop :
  0 ≤ start → 0 ≤ stop →
  Z.of_nat (length (range_by_rank l start stop)) ≤ Z.max 0 (stop - start + 1).
Proof.
  intros Hs He. unfold range_by_rank.
  rewrite !(decide_False (P := start < 0)), (decide_False (P := stop < 0)) by lia.
  destruct (decide (_ ∨ _)); [simpl; lia|].
  rewrite length_take. destruct (decide (_ ≤ stop)); lia.
Qed.

Lemma range_by_rank_all {A} (l : list A) : range_by_rank l 0 (-1) = l.
Proof.
  unfold range_by_rank. destruct l as [|x l]; [done|].
  set (n := Z.of_nat (length (x :: l))).
  assert (1 ≤ n) by (unfold n; simpl length; lia).
  repeat case_decide; try lia.
  change (Z.to_nat 0) with 0%nat. rewrite drop_0.
  apply take_ge. unfold n in *. lia.
Qed.

#[global] Instance zrev_le_total : Total zrev_le.
Proof.
  intros [a s] [b t]. unfold zrev_le. simpl.
  destruct (Z.lt_total s t) as [?|[->|?]]; [by right; left| |by left; left].
  destruct (String.leb_total a b); [right|left]; right; done.
Qed.

Lemma zrev_sorted_perm m : zrev_sorted m ≡ₚ map_to_list m.
Proof. apply merge_sort_Permutation. Qed.

Lemma zrev_sorted_NoDup m : NoDup (zrev_sorted m).*1.
Proof. rewrite zrev_sorted_perm. apply NoDup_fst_map_to_list. Qed.

Lemma zrev_sorted_elem m k s : (k, s) ∈ zrev_sorted m ↔ m !! k = Some s.
Proof. rewrite zrev_sorted_perm. apply elem_of_map_to_list. Qed.

Lemma zrev_sorted_length m : length (zrev_sorted m) = size m.
Proof. rewrite zrev_sorted_perm. by rewrite length_map_to_list. Qed.

Lemma ZREVRANGE_NoDup z start stop r : NoDup (eval (ZREVRANGE z start stop) r).
Proof.
  unfold eval, ZREVRANGE. simpl.
  eapply sublist_NoDup; [apply (zrev_sorted_NoDup (zset z r))|].
  apply fmap_sublist, range_by_rank_sublist.
Qed.

Lemma ZREVRANGE_elem z start stop r post_id :
  post_id ∈ eval (ZREVRANGE z start stop) r → is_Some (score z post_id r).
Proof.
  unfold eval, ZREVRANGE, score. simpl.
  intros ([k s] & -> & Hin)%list_elem_of_fmap.
  eapply elem_of_sublist in Hin; [|apply range_by_rank_sublist].
  apply zrev_sorted_elem in Hin. eauto.
Qed.


(** ** Reading a page of posts *)

Lemma get_post_eval post_id r :
  eval (RedisService.get_post post_id) r = snapshot post_id <$> lookup_post post_id r.
Proof.
  unfold eval. destruct (lookup_post post_id r) as [e|] eqn:Hk.
  - by rewrite (get_post_present _ _ _ Hk).
  - by rewrite (get_post_absent _ _ Hk).
Qed.

Lemma get_post_lookup_same post_id r :
  lookup_post post_id (exec (RedisService.get_post post_id) r)
    = viewed <$> lookup_post post_id r.
Proof.
  destruct (lookup_post post_id r) as [e|] eqn:Hk.
  - by rewrite (get_post_lookup _ _ _ Hk).
  - unfold exec. by rewrite (get_post_absent _ _ Hk).
Qed.

Lemma get_post_lookup_other post_id post_id' r :
  post_id ≠ post_id' →
  lookup_post post_id' (exec (RedisService.get_post post_id) r) = lookup_post post_id' r.
Proof.
  intros Hne. unfold exec. destruct (lookup_post post_id r) as [e|] eqn:Hk.
  - rewrite (get_post_present _ _ _ Hk). unfold lookup_post. simpl.
    apply lookup_insert_ne. by intros ?%post_key_inj.
  - by rewrite (get_post_absent _ _ Hk).
Qed.

Lemma get_post_rank_views_other post_id post_id' r :
  post_id ≠ post_id' →
  score posts_rank_views post_id' (exec (RedisService.get_post post_id) r)
    = score posts_rank_views post_id' r.
Proof.
  intros Hne. unfold exec, score. destruct (lookup_post post_id r) as [e|] eqn:Hk.
  - rewrite (get_post_present _ _ _ Hk). simpl. by apply lookup_insert_ne.
  - by rewrite (get_post_absent _ _ Hk).
Qed.

Lemma get_post_indexes post_id r :
  let r' := exec (RedisService.get_post post_id) r in
  active r' = active r ∧ expiring r' = expiring r ∧ rank_recs r' = rank_recs r.
Proof.
  simpl. unfold exec. destruct (lookup_post post_id r) as [e|] eqn:Hk.
  - by rewrite (get_post_present _ _ _ Hk).
  - by rewrite (get_post_absent _ _ Hk).
Qed.

Lemma read_all_cons post_id post_ids r :
  read_all (post_id :: post_ids) r
    = read_all post_ids (exec (RedisService.get_post post_id) r).
Proof. reflexivity. Qed.

Lemma read_all_indexes post_ids :
  ∀ r, active (read_all post_ids r) = active r
       ∧ expiring (read_all post_ids r) = expiring r
       ∧ rank_recs (read_all post_ids r) = rank_recs r.
Proof.
  induction post_ids as [|p post_ids IH]; intros r; [done|].
  rewrite read_all_cons.
  destruct (IH (exec (RedisService.get_post p) r)) as (-> & -> & ->).
  apply get_post_indexes.
Qed.

Lemma read_all_lookup post_ids post_id :
  NoDup post_ids →
  ∀ r, lookup_post post_id (read_all post_ids r)
       = if decide (post_id ∈ post_ids)
         then viewed <$> lookup_post post_id r
         else lookup_post post_id r.
Proof.
  induction 1 as [|p post_ids Hp Hnd IH]; intros r.
  - rewrite decide_False by (rewrite elem_of_nil; tauto). done.
  - rewrite read_all_cons, IH.
    destruct (decide (post_id = p)) as [->|Hne].
    + rewrite decide_False by done.
      rewrite decide_True by (rewrite elem_of_cons; by left).
      apply get_post_lookup_same.
    + rewrite get_post_lookup_other by done.
      destruct (decide (post_id ∈ post_ids)).
      * rewrite decide_True by (rewrite elem_of_cons; by right). done.
      * rewrite decide_False by (intros [?|?]%elem_of_cons; done). done.
Qed.

Lemma read_all_rank_views post_ids post_id :
  NoDup post_ids →
  ∀ r, score posts_rank_views post_id (read_all post_ids r)
       = if decide (post_id ∈ post_ids)
         then match lookup_post post_id r with
              | Some e => Some (views_of e)
              | None => score posts_rank_views post_id r
              end
         else score posts_rank_views post_id r.
Proof.
  induction 1 as [|p post_ids Hp Hnd IH]; intros r.
  - rewrite decide_False by (rewrite elem_of_nil; tauto). done.
  - rewrite read_all_cons, IH.
    destruct (decide (post_id = p)) as [->|Hne].
    + rewrite decide_False by done.
      rewrite decide_True by (rewrite elem_of_cons; by left).
      destruct (lookup_post p r) as [e|] eqn:Hk.
      * unfold exec, score. rewrite (get_post_present _ _ _ Hk).
        simpl. by rewrite lookup_insert_eq.
      * unfold exec. by rewrite (get_post_absent _ _ Hk).
    + rewrite get_post_lookup_other, get_post_rank_views_other by done.
      destruct (decide (post_id ∈ post_ids)).
      * rewrite decide_True by (rewrite elem_of_cons; by right). done.
      * rewrite decide_False by (intros [?|?]%elem_of_cons; done). done.
Qed.

Lemma get_active_posts_loop_exec post_ids :
  ∀ r, exec (RedisService.get_active_posts_loop post_ids) r = read_all post_ids r.
Proof.
  induction post_ids as [|p post_ids IH]; intros r; [done|].
  rewrite read_all_cons, <- IH. unfold exec. simpl. unfold bind.
  destruct (RedisService.get_post p r) as [r1 post]. simpl.
  by destruct (RedisService.get_active_posts_loop post_ids r1).
Qed.

Lemma get_ranking_loop_exec items :
  ∀ r, exec (RedisService.get_ranking_loop items) r = read_all items.*1 r.
Proof.
  induction items as [|[p s] items IH]; intros r; [done|].
  simpl fmap. rewrite read_all_cons, <- IH. unfold exec. simpl. unfold bind.
  destruct (RedisService.get_post p r) as [r1 post]. simpl.
  by destruct (RedisService.get_ranking_loop items r1).
Qed.

Lemma listed_after_other r p post_id :
  p ≠ post_id → listed (exec (RedisService.get_post p) r) post_id = listed r post_id.
Proof. intros Hne. unfold listed. by rewrite get_post_lookup_other. Qed.

Lemma get_active_posts_loop_eval post_ids :
  NoDup post_ids →
  ∀ r, eval (RedisService.get_active_posts_loop post_ids) r = omap (listed r) post_ids.
Proof.
  induction 1 as [|p post_ids Hp Hnd IH]; intros r; [done|].
  unfold eval. simpl. unfold bind.
  pose proof (get_post_eval p r) as Hget. unfold eval in Hget.
  pose proof (IH (exec (RedisService.get_post p) r)) as Hrest. unfold eval, exec in Hrest.
  destruct (RedisService.get_post p r) as [r1 post] eqn:Hr1'. simpl in *.
  assert (exec (RedisService.get_post p) r = r1) as Hr1 by (unfold exec; by rewrite Hr1').
  destruct (RedisService.get_active_posts_loop post_ids r1) as [r2 posts]. simpl in *.
  subst post posts. unfold ret. simpl.
  assert (omap (listed r1) post_ids = omap (listed r) post_ids) as ->.
  { apply list_omap_ext, Forall_Forall2_diag, Forall_forall.
    intros a Ha. rewrite <- Hr1. apply listed_after_other. by intros ->. }
  csimpl. unfold listed. destruct (lookup_post p r) as [e|]; simpl; [|done].
  by destruct (decide _).
Qed.

Lemma ranked_after_other r p item :
  p ≠ item.1 → ranked (exec (RedisService.get_post p) r) item = ranked r item.
Proof. intros Hne. unfold ranked. by rewrite get_post_lookup_other. Qed.

Lemma get_ranking_loop_eval items :
  NoDup items.*1 →
  ∀ r, eval (RedisService.get_ranking_loop items) r = omap (ranked r) items.
Proof.
  induction items as [|[p s] items IH]; intros Hnd r; [done|].
  apply NoDup_cons in Hnd as [Hp Hnd].
  unfold eval. simpl. unfold bind.
  pose proof (get_post_eval p r) as Hget. unfold eval in Hget.
  pose proof (IH Hnd (exec (RedisService.get_post p) r)) as Hrest.
  unfold eval, exec in Hrest.
  destruct (RedisService.get_post p r) as [r1 post] eqn:Hr1'. simpl in *.
  assert (exec (RedisService.get_post p) r = r1) as Hr1 by (unfold exec; by rewrite Hr1').
  destruct (RedisService.get_ranking_loop items r1) as [r2 ranking]. simpl in *.
  subst post ranking. unfold ret. simpl.
  assert (omap (ranked r1) items = omap (ranked r) items) as ->.
  { apply list_omap_ext, Forall_Forall2_diag, Forall_forall.
    intros a Ha. rewrite <- Hr1. apply ranked_after_other.
    intros ->. apply Hp. by apply list_elem_of_fmap_2. }
  csimpl. unfold ranked. simpl. by destruct (lookup_post p r).
Qed.

Lemma omap_length_le {A B} (f : A → option B) l :
  (length (omap f l) ≤ length l)%nat.
Proof. induction l as [|x l IH]; csimpl; [done|]. destruct (f x); simpl; lia. Qed.

Lemma StronglySorted_sublist {A} (R : relation A) l1 l2 :
  l1 `sublist_of` l2 → StronglySorted R l2 → StronglySorted R l1.
Proof.
  induction 1 as [|x l1 l2 Hsub IH|x l1 l2 Hsub IH]; intros Hs; [done|..].
  - apply StronglySorted_inv in Hs as [Hs Hall]. constructor; [by apply IH|].
    rewrite Forall_forall in Hall |- *. intros y Hy. apply Hall.
    by eapply elem_of_sublist.
  - apply StronglySorted_inv in Hs as [Hs _]. by apply IH.
Qed.


#[global] Instance by_score_trans : Transitive by_score.
Proof. unfold by_score. intros a b c. lia. Qed.

Lemma zrev_sorted_by_score m : StronglySorted by_score (zrev_sorted m).
Proof.
  apply Sorted_StronglySorted; [apply _|].
  rewrite <- (list_fmap_id (zrev_sorted m)).
  apply (Sorted_fmap id zrev_le by_score); [|apply Sorted_merge_sort, _].
  unfold zrev_le, by_score. intros a b [?|[? _]]; simpl; lia.
Qed.

Lemma ranked_scores_sublist r items :
  (rk_score <$> omap (ranked r) items) `sublist_of` items.*2.
Proof.
  induction items as [|[p s] items IH]; csimpl; [done|].
  unfold ranked at 1. simpl. destruct (lookup_post p r); simpl.
  - by apply sublist_skip.
  - by apply sublist_cons.
Qed.

Lemma get_active_posts_run page per_page r :
  RedisService.get_active_posts page per_page r =
    let post_ids :=
      eval (ZREVRANGE posts_active ((page - 1) * per_page)
              ((page - 1) * per_page + per_page - 1)) r in
    (read_all post_ids r,
     {| ap_posts := omap (listed r) post_ids;
        ap_total := Z.of_nat (size (active r));
        ap_page := page;
        ap_per_page := per_page |}).
Proof.
  simpl. unfold RedisService.get_active_posts, bind.
  set (post_ids := eval (ZREVRANGE posts_active _ _) r).
  change (ZREVRANGE posts_active ((page - 1) * per_page)
            ((page - 1) * per_page + per_page - 1) r) with (r, post_ids).
  simpl.
  pose proof (get_active_posts_loop_exec post_ids r) as Hex.
  pose proof (get_active_posts_loop_eval post_ids (ZREVRANGE_NoDup _ _ _ r) r) as Hev.
  unfold exec, eval in Hex, Hev.
  destruct (RedisService.get_active_posts_loop post_ids r) as [r1 posts].
  simpl in *. subst r1 posts. unfold ZCARD, ret. simpl.
  by destruct (read_all_indexes post_ids r) as (-> & _).
Qed.

Lemma listed_active r post_id p : listed r post_id = Some p → p_status p = ACTIVE.
Proof.
  unfold listed. destruct (lookup_post post_id r) as [e|]; simpl; [|done].
  destruct (decide _) as [Hs|]; [|done]. by intros [= <-].
Qed.

(** X13: a listing returns, in the order of the active index (newest
    first), the snapshots of those ids of the page that have a record
    whose status is active, each as it was before the call; ids with no
    record and blinded posts are skipped; [total] is the size of the
    active index, whatever has become of the records; and for a page and
    page size of at least 1 the listing holds at most [per_page] posts. *)
Theorem get_active_posts_lists_page page per_page r :
  let post_ids :=
    eval (ZREVRANGE posts_active ((page - 1) * per_page)
            ((page - 1) * per_page + per_page - 1)) r in
  let listing := eval (RedisService.get_active_posts page per_page) r in
  ap_posts listing = omap (listed r) post_ids
  ∧ Forall (λ p, p_status p = ACTIVE) (ap_posts listing)
  ∧ ap_total listing = Z.of_nat (size (active r))
  ∧ (1 ≤ page → 1 ≤ per_page → Z.of_nat (length (ap_posts listing)) ≤ per_page).
Proof.
  intros post_ids listing.
  assert (listing = {| ap_posts := omap (listed r) post_ids;
                       ap_total := Z.of_nat (size (active r));
                       ap_page := page; ap_per_page := per_page |}) as ->
    by (unfold listing, eval; by rewrite get_active_posts_run).
  simpl. split; [done|]. split; [|split; [done|]].
  - apply Forall_forall. intros p (x & _ & Hx)%list_elem_of_omap.
    by eapply listed_active.
  - intros Hpage Hper.
    etrans; [apply inj_le, omap_length_le|].
    unfold post_ids, eval, ZREVRANGE. simpl. rewrite length_fmap.
    etrans; [apply range_by_rank_length; nia|]. lia.
Qed.

(** X14: a listing counts a view for every post of its page that has a
    record, blinded or not, and sets its view-ranking score to the views
    it had; a post off the page keeps its record and its score; the
    active, expiring and recommendation indexes are as they were. *)
Theorem get_active_posts_counts_views page per_page r post_id e :
  lookup_post post_id r = Some e →
  let post_ids :=
    eval (ZREVRANGE posts_active ((page - 1) * per_page)
            ((page - 1) * per_page + per_page - 1)) r in
  let r' := exec (RedisService.get_active_posts page per_page) r in
  (post_id ∈ post_ids →
     stored views post_id r' = Some (views_of e + 1)
     ∧ score posts_rank_views post_id r' = Some (views_of e))
  ∧ (post_id ∉ post_ids →
     lookup_post post_id r' = Some e
     ∧ score posts_rank_views post_id r' = score posts_rank_views post_id r)
  ∧ active r' = active r ∧ expiring r' = expiring r ∧ rank_recs r' = rank_recs r.
Proof.
  intros Hk. simpl. unfold exec. rewrite get_active_posts_run. simpl.
  set (post_ids := eval (ZREVRANGE posts_active _ _) r).
  pose proof (ZREVRANGE_NoDup posts_active ((page - 1) * per_page)
                ((page - 1) * per_page + per_page - 1) r) as Hnd.
  fold post_ids in Hnd.
  split; [|split; [|apply read_all_indexes]].
  - intros Hin. unfold stored.
    rewrite (read_all_lookup _ _ Hnd), (read_all_rank_views _ _ Hnd).
    rewrite !decide_True by done. by rewrite Hk.
  - intros Hout.
    rewrite (read_all_lookup _ _ Hnd), (read_all_rank_views _ _ Hnd).
    by rewrite !decide_False by done.
Qed.

Lemma all_ok_length {A B} (f : A → result B) l ys :
  all_ok f l = Ok ys → length ys = length l.
Proof.
  revert ys. induction l as [|x l IH]; intros ys; simpl; [by intros [= <-]|].
  destruct (f x); [|done]. destruct (all_ok f l) as [zs|]; [|done].
  intros [= <-]. simpl. f_equal. by apply IH.
Qed.

(** X15: when the listing request answers 200, a page and page size of at
    least 1 give at most min(per_page, 100) posts; a page size of 0 gives
    every listable post of the whole active index, whatever the page,
    since the range it asks for is then 0 .. -1. *)
Theorem get_posts_page_size page per_page r body :
  eval (posts.get_posts page per_page) r = HTTP_200 body →
  (1 ≤ page → 1 ≤ per_page →
     Z.of_nat (length (list_posts body)) ≤ Z.min per_page 100)
  ∧ (per_page = 0 →
     length (list_posts body)
       = length (omap (listed r) (zrev_sorted (active r)).*1)).
Proof.
  unfold eval, posts.get_posts, bind. rewrite get_active_posts_run. simpl.
  unfold PostListResponse_of. simpl.
  destruct (all_ok PostResponse_of _) as [ys|] eqn:Hok; simpl; [|done].
  intros [= <-]. simpl. rewrite (all_ok_length _ _ _ Hok). split.
  - intros Hpage Hper.
    etrans; [apply inj_le, omap_length_le|].
    unfold eval, ZREVRANGE. simpl. rewrite length_fmap.
    etrans; [apply range_by_rank_length; nia|]. lia.
  - intros ->. unfold eval, ZREVRANGE. simpl snd.
    change (Z.min 0 100) with 0. rewrite Z.mul_0_r.
    change (0 + 0 - 1) with (-1).
    by rewrite range_by_rank_all.
Qed.

Lemma ZREVRANGE_WITHSCORES_NoDup z start stop r :
  NoDup (eval (ZREVRANGE_WITHSCORES z start stop) r).*1.
Proof. apply (ZREVRANGE_NoDup z start stop r). Qed.

Lemma get_ranking_run rank_type limit r :
  RedisService.get_ranking rank_type limit r =
    let items := eval (ZREVRANGE_WITHSCORES (RedisService.rank_key rank_type) 0 (limit - 1)) r in
    (read_all items.*1 r, omap (ranked r) items).
Proof.
  simpl. unfold RedisService.get_ranking, bind.
  set (items := eval (ZREVRANGE_WITHSCORES _ _ _) r).
  change (ZREVRANGE_WITHSCORES (RedisService.rank_key rank_type) 0 (limit - 1) r) with (r, items).
  simpl.
  pose proof (get_ranking_loop_exec items r) as Hex.
  pose proof (get_ranking_loop_eval items (ZREVRANGE_WITHSCORES_NoDup _ _ _ r) r) as Hev.
  unfold exec, eval in Hex, Hev.
  destruct (RedisService.get_ranking_loop items r) as [r1 ranking].
  simpl in *. by subst.
Qed.

(** X16: a ranking returns the items of the top of the index that have a
    record, blinded ones included, with scores in non-increasing order,
    each score being the index score of that id at the time of the call;
    for a limit of at least 1 it holds at most [limit] items. *)
Theorem get_ranking_in_score_order rank_type limit r :
  let items := eval (ZREVRANGE_WITHSCORES (RedisService.rank_key rank_type) 0 (limit - 1)) r in
  let ranking := eval (RedisService.get_ranking rank_type limit) r in
  ranking = omap (ranked r) items
  ∧ StronglySorted (λ a b, b ≤ a) (rk_score <$> ranking)
  ∧ Forall (λ item, score (RedisService.rank_key rank_type) (p_id (rk_post item)) r
                    = Some (rk_score item)) ranking
  ∧ (1 ≤ limit → Z.of_nat (length ranking) ≤ limit).
Proof.
  intros items ranking.
  assert (ranking = omap (ranked r) items) as ->
    by (unfold ranking, eval; by rewrite get_ranking_run).
  assert (items `sublist_of` zrev_sorted (zset (RedisService.rank_key rank_type) r)) as Hsub
    by apply range_by_rank_sublist.
  split; [done|]. split; [|split].
  - eapply StronglySorted_sublist; [apply ranked_scores_sublist|].
    apply (StronglySorted_fmap snd by_score); [done|].
    eapply StronglySorted_sublist; [exact Hsub|apply zrev_sorted_by_score].
  - apply Forall_forall. intros item ([p s] & Hin & Hx)%list_elem_of_omap.
    unfold ranked in Hx. simpl in Hx.
    destruct (lookup_post p r); simpl in Hx; [|done]. injection Hx as <-. simpl.
    unfold score. apply zrev_sorted_elem. by eapply elem_of_sublist.
  - intros Hlimit.
    etrans; [apply inj_le, omap_length_le|].
    etrans; [apply range_by_rank_length; lia|]. lia.
Qed.

(** X17: a ranking of either kind counts a view for every ranked post that
    has a record and sets its view-ranking score to the views it had; it
    leaves the recommendation ranking, the active index and the expiring
    index as they were. *)
Theorem get_ranking_counts_views rank_type limit r post_id e s :
  lookup_post post_id r = Some e →
  (post_id, s) ∈ eval (ZREVRANGE_WITHSCORES (RedisService.rank_key rank_type) 0 (limit - 1)) r →
  let r' := exec (RedisService.get_ranking rank_type limit) r in
  stored views post_id r' = Some (views_of e + 1)
  ∧ score posts_rank_views post_id r' = Some (views_of e)
  ∧ rank_recs r' = rank_recs r ∧ active r' = active r ∧ expiring r' = expiring r.
Proof.
  intros Hk Hin. simpl. unfold exec. rewrite get_ranking_run. simpl.
  set (items := eval (ZREVRANGE_WITHSCORES _ _ _) r) in *.
  pose proof (ZREVRANGE_WITHSCORES_NoDup (RedisService.rank_key rank_type) 0 (limit - 1) r) as Hnd.
  fold items in Hnd.
  assert (post_id ∈ items.*1) as Hin' by (by apply (list_elem_of_fmap_2 fst _ (post_id, s))).
  unfold stored.
  rewrite (read_all_lookup _ _ Hnd), (read_all_rank_views _ _ Hnd).
  rewrite !decide_True by done. rewrite Hk.
  destruct (read_all_indexes items.*1 r) as (-> & -> & ->). done.
Qed.

(** X18: when the ranking request answers 200, a limit of at least 1
    gives at most min(limit, 50) posts, and a limit of 0 gives every
    ranked post that has a record. *)
Theorem get_ranking_request_size rank_type limit r body :
  eval (posts.get_ranking rank_type limit) r = HTTP_200 body →
  (1 ≤ limit → Z.of_nat (length body) ≤ Z.min limit 50)
  ∧ (limit = 0 →
     length body = length (omap (ranked r) (zrev_sorted (zset (RedisService.rank_key rank_type) r)))).
Proof.
  unfold eval, posts.get_ranking, bind. rewrite get_ranking_run. simpl.
  destruct (all_ok _ _) as [ys|] eqn:Hok; simpl; [|done].
  intros [= <-]. rewrite (all_ok_length _ _ _ Hok). split.
  - intros Hlimit.
    etrans; [apply inj_le, omap_length_le|].
    etrans; [apply range_by_rank_length; lia|]. lia.
  - intros ->. unfold eval, ZREVRANGE_WITHSCORES. simpl snd.
    change (Z.min 0 50 - 1) with (-1).
    by rewrite range_by_rank_all.
Qed.


(** ** Records only grow *)

Lemma grown_refl e : grown e e.
Proof. unfold grown. repeat split; (done || lia). Qed.

Lemma grown_trans e1 e2 e3 : grown e1 e2 → grown e2 e3 → grown e1 e3.
Proof.
  unfold grown. intros (?&?&?&?&?&?&?&?) (?&?&?&?&?&?&?&?).
  repeat split; try congruence; try lia. auto.
Qed.

Lemma get_post_grows post_id r post_id' e :
  lookup_post post_id' r = Some e →
  ∃ e', lookup_post post_id' (exec (RedisService.get_post post_id) r) = Some e'
        ∧ grown e e'.
Proof.
  intros He. destruct (decide (post_id = post_id')) as [->|Hne].
  - rewrite get_post_lookup_same, He. eexists. split; [done|].
    unfold grown, viewed, views_of, recs_of, reports_of. simpl.
    repeat split; (done || lia).
  - rewrite get_post_lookup_other by done. eauto using grown_refl.
Qed.

Lemma recommend_post_lookup_other settings post_id post_id' r :
  post_id ≠ post_id' →
  lookup_post post_id' (exec (RedisService.recommend_post settings post_id) r)
    = lookup_post post_id' r.
Proof.
  intros Hne. assert (post_key post_id ≠ post_key post_id') as Hk'
    by (by intros ?%post_key_inj).
  rewrite exec_recommend_post. unfold lookup_post at 1.
  destruct (lookup_post post_id r) as [e|] eqn:Hk.
  - destruct (decide (f_status (hash e) = Some BLINDED)) as [Hs|Hs]; unfold exec.
    + by rewrite (RECOMMEND_SCRIPT_blinded _ _ _ _ _ _ Hk Hs).
    + rewrite (RECOMMEND_SCRIPT_present _ _ _ _ _ _ Hk Hs). simpl.
      destruct (_ && _); [destruct (decide _)|].
      * by rewrite lookup_delete_ne.
      * by rewrite lookup_insert_ne.
      * by rewrite lookup_insert_ne.
  - rewrite (RECOMMEND_SCRIPT_absent _ _ _ _ _ Hk). simpl.
    by rewrite lookup_insert_ne.
Qed.

Lemma report_post_lookup_other settings post_id post_id' r :
  post_id ≠ post_id' →
  lookup_post post_id' (exec (RedisService.report_post settings post_id) r)
    = lookup_post post_id' r.
Proof.
  intros Hne. assert (post_key post_id ≠ post_key post_id') as Hk'
    by (by intros ?%post_key_inj).
  rewrite exec_report_post. unfold lookup_post at 1.
  destruct (lookup_post post_id r) as [e|] eqn:Hk.
  - unfold exec. rewrite (REPORT_SCRIPT_present _ _ _ _ Hk). simpl.
    by rewrite lookup_insert_ne.
  - destruct (REPORT_SCRIPT_absent _ (report_blind_threshold settings) _ Hk)
      as (h & _ & ->). simpl. by rewrite lookup_insert_ne.
Qed.

(** The entry a recommendation leaves for an existing post. *)
Lemma recommend_post_lookup settings post_id r e :
  lookup_post post_id r = Some e →
  0 ≤ recommendation_extension_ttl settings →
  lookup_post post_id (exec (RedisService.recommend_post settings post_id) r) =
    Some (if decide (f_status (hash e) = Some BLINDED) then e
          else mkEntry (set_counter recommendations (recs_of e + 1) (hash e))
                 (if bool_decide (lua_mod (recs_of e + 1)
                                    (recommendation_extension_threshold settings) = Some 0)
                     && bool_decide (0 < default (-1) (expire e))
                  then Some (default (-1) (expire e) + recommendation_extension_ttl settings)
                  else expire e)).
Proof.
  intros Hk HE. rewrite exec_recommend_post. unfold exec.
  destruct (decide (f_status (hash e) = Some BLINDED)) as [Hs|Hs].
  - by rewrite (RECOMMEND_SCRIPT_blinded _ _ _ _ _ _ Hk Hs).
  - rewrite (RECOMMEND_SCRIPT_present _ _ _ _ _ _ Hk Hs). unfold lookup_post. simpl.
    fold (recs_of e).
    destruct (bool_decide (lua_mod _ _ = _)); simpl;
      [destruct (bool_decide (0 < _)) eqn:Ht; simpl|].
    + apply bool_decide_eq_true in Ht. rewrite decide_False by lia.
      by rewrite lookup_insert_eq.
    + by rewrite lookup_insert_eq.
    + by rewrite lookup_insert_eq.
Qed.

Lemma report_post_lookup settings post_id r e :
  lookup_post post_id r = Some e →
  lookup_post post_id (exec (RedisService.report_post settings post_id) r) =
    Some (mkEntry (if decide (report_blind_threshold settings ≤ reports_of e + 1)
                   then set_status BLINDED (set_counter reports (reports_of e + 1) (hash e))
                   else set_counter reports (reports_of e + 1) (hash e))
                  (expire e)).
Proof.
  intros Hk. rewrite exec_report_post. unfold exec.
  rewrite (REPORT_SCRIPT_present _ _ _ _ Hk). unfold lookup_post. simpl.
  apply lookup_insert_eq.
Qed.

Lemma recommend_post_grows settings post_id r post_id' e :
  0 ≤ recommendation_extension_ttl settings →
  lookup_post post_id' r = Some e →
  ∃ e', lookup_post post_id' (exec (RedisService.recommend_post settings post_id) r) = Some e'
        ∧ grown e e'.
Proof.
  intros HE He. destruct (decide (post_id = post_id')) as [->|Hne].
  - rewrite (recommend_post_lookup _ _ _ _ He HE). eexists. split; [done|].
    destruct (decide _); [apply grown_refl|].
    unfold grown, views_of, recs_of, reports_of. simpl.
    repeat split; (done || lia).
  - rewrite recommend_post_lookup_other by done. eauto using grown_refl.
Qed.

Lemma report_post_grows settings post_id r post_id' e :
  lookup_post post_id' r = Some e →
  ∃ e', lookup_post post_id' (exec (RedisService.report_post settings post_id) r) = Some e'
        ∧ grown e e'.
Proof.
  intros He. destruct (decide (post_id = post_id')) as [->|Hne].
  - rewrite (report_post_lookup _ _ _ _ He). eexists. split; [done|].
    unfold grown, views_of, recs_of, reports_of.
    destruct (decide _); simpl; repeat split; (done || lia).
  - rewrite report_post_lookup_other by done. eauto using grown_refl.
Qed.

Lemma read_all_grows post_ids :
  ∀ r post_id e, lookup_post post_id r = Some e →
    ∃ e', lookup_post post_id (read_all post_ids r) = Some e' ∧ grown e e'.
Proof.
  induction post_ids as [|p post_ids IH]; intros r post_id e He.
  - eauto using grown_refl.
  - rewrite read_all_cons.
    destruct (get_post_grows p r post_id e He) as (e1 & He1 & Hg1).
    destruct (IH _ _ _ He1) as (e2 & He2 & Hg2).
    eauto using grown_trans.
Qed.

(** ** Runs of recommendations *)

Lemma div_succ c T :
  0 < T → (c + 1) `div` T = c `div` T + (if decide ((c + 1) `mod` T = 0) then 1 else 0).
Proof.
  intros HT.
  pose proof (Z.div_mod c T ltac:(lia)) as Hc.
  pose proof (Z.mod_pos_bound c T HT) as Hm.
  destruct (decide (c `mod` T = T - 1)) as [Heq|Hne].
  - assert ((c + 1) `mod` T = 0) as H0.
    { symmetry. apply (Z.mod_unique _ _ (c `div` T + 1)); [lia|nia]. }
    rewrite decide_True by done.
    symmetry. apply (Z.div_unique _ _ _ 0); [lia|nia].
  - assert ((c + 1) `mod` T = c `mod` T + 1) as H1.
    { symmetry. apply (Z.mod_unique _ _ (c `div` T)); [lia|nia]. }
    rewrite decide_False by lia.
    symmetry. apply (Z.div_unique _ _ _ (c `mod` T + 1)); [lia|nia].
Qed.

Lemma consecutive_recommends settings post_id n :
  0 < recommendation_extension_threshold settings →
  0 ≤ recommendation_extension_ttl settings →
  ∀ r e ttl,
    lookup_post post_id r = Some e →
    f_status (hash e) ≠ Some BLINDED →
    0 ≤ recs_of e →
    expire e = Some ttl →
    0 < ttl →
    ∃ e', lookup_post post_id
            (exec (consecutive n (RedisService.recommend_post settings post_id)) r)
          = Some e'
        ∧ (n ≠ 0%nat → f_recommendations (hash e') = Some (recs_of e + Z.of_nat n))
        ∧ recs_of e' = recs_of e + Z.of_nat n
        ∧ expire e'
          = Some (ttl + recommendation_extension_ttl settings
                        * ((recs_of e + Z.of_nat n)
                             `div` recommendation_extension_threshold settings
                           - recs_of e `div` recommendation_extension_threshold settings))
        ∧ f_status (hash e') = f_status (hash e)
        ∧ f_views (hash e') = f_views (hash e).
Proof.
  intros HT HE. induction n as [|n IH]; intros r e ttl Hk Hs Hc Ht Hpos.
  - exists e. unfold exec. simpl.
    repeat split; try done; rewrite ?Z.add_0_r; try done.
    rewrite Ht. f_equal. lia.
  - rewrite exec_consecutive_S.
    pose proof (recommend_post_lookup settings _ _ _ Hk HE) as Hk1.
    rewrite decide_False in Hk1 by done.
    rewrite Ht in Hk1. simpl in Hk1.
    rewrite (bool_decide_eq_true_2 (0 < ttl)) in Hk1 by done.
    rewrite andb_true_r in Hk1.
    set (T := recommendation_extension_threshold settings) in *.
    set (E := recommendation_extension_ttl settings) in *.
    set (ttl1 := ttl + if decide ((recs_of e + 1) `mod` T = 0) then E else 0).
    set (e1 := mkEntry (set_counter recommendations (recs_of e + 1) (hash e)) (Some ttl1)).
    assert (lookup_post post_id (exec (RedisService.recommend_post settings post_id) r)
            = Some e1) as Hk1'.
    { rewrite Hk1. unfold e1, ttl1. f_equal. f_equal.
      destruct (bool_decide (lua_mod _ _ = _)) eqn:Hb.
      - apply bool_decide_eq_true, lua_mod_multiple in Hb; [|done].
        rewrite decide_True by done. done.
      - apply bool_decide_eq_false in Hb.
        rewrite decide_False; [by rewrite Z.add_0_r|].
        intros ?. apply Hb. by apply lua_mod_multiple. }
    destruct (IH _ e1 ttl1 Hk1') as (e' & He' & Hf & Hr & Hx & Hst & Hv).
    { done. }
    { unfold e1, recs_of. simpl. unfold recs_of in Hc. lia. }
    { done. }
    { unfold ttl1. destruct (decide _); lia. }
    assert (recs_of e1 = recs_of e + 1) as Hr1 by done.
    exists e'. split; [done|]. rewrite Hr1 in *.
    split; [intros _|split; [lia|split; [|done]]].
    + destruct n as [|n'].
      * change (lookup_post post_id
                  (exec (RedisService.recommend_post settings post_id) r) = Some e')
          in He'.
        rewrite Hk1' in He'. injection He' as <-. simpl. try (f_equal; lia).
      * rewrite Hf by done. f_equal. lia.
    + rewrite Hx. f_equal. unfold ttl1. rewrite (div_succ (recs_of e) T HT).
      replace (recs_of e + 1 + Z.of_nat n) with (recs_of e + Z.of_nat (S n)) by lia.
      destruct (decide _); lia.
Qed.

(** X6: n recommendations in a row on a post that is not blinded (count
    not negative, remaining time to live positive, threshold positive,
    extension not negative) raise the count by n and the time to live by
    one extension for each multiple of the threshold the count passes. *)
Theorem recommendations_extend_once_per_threshold settings post_id n r e ttl :
  0 < recommendation_extension_threshold settings →
  0 ≤ recommendation_extension_ttl settings →
  lookup_post post_id r = Some e →
  f_status (hash e) ≠ Some BLINDED →
  0 ≤ recs_of e →
  expire e = Some ttl →
  0 < ttl →
  let T := recommendation_extension_threshold settings in
  let r' := exec (consecutive n (RedisService.recommend_post settings post_id)) r in
  default 0 (stored recommendations post_id r') = recs_of e + Z.of_nat n
  ∧ remaining_ttl post_id r'
    = ttl + recommendation_extension_ttl settings
            * ((recs_of e + Z.of_nat n) `div` T - recs_of e `div` T).
Proof.
  intros HT HE Hk Hs Hc Ht Hpos T r'.
  destruct (consecutive_recommends settings post_id n HT HE r e ttl Hk Hs Hc Ht Hpos)
    as (e' & He' & _ & Hr & Hx & _).
  fold r' in He'. unfold stored, remaining_ttl, eval, TTL.
  unfold lookup_post in *. rewrite He'. simpl. rewrite Hx. simpl. done.
Qed.

Lemma recommendations_extend_once_per_threshold_witness :
  lookup_post "a" fresh_post = Some (mkEntry (sample_hash 0 0 0 ACTIVE) (Some 600))
  ∧ default 0 (stored recommendations "a"
                (exec (consecutive 250 (RedisService.recommend_post default_settings "a"))
                      fresh_post)) = 250
  ∧ remaining_ttl "a"
      (exec (consecutive 250 (RedisService.recommend_post default_settings "a")) fresh_post)
    = 1200.
Proof.
  assert (lookup_post "a" fresh_post
          = Some (mkEntry (sample_hash 0 0 0 ACTIVE) (Some 600))) as H
    by (vm_compute; reflexivity).
  split; [exact H|].
  destruct (recommendations_extend_once_per_threshold default_settings "a" 250
              fresh_post (mkEntry (sample_hash 0 0 0 ACTIVE) (Some 600)) 600)
    as [Hc Ht];
    [simpl; lia | simpl; lia | exact H | discriminate | vm_compute; discriminate
    | reflexivity | lia |].
  split; [exact Hc | exact Ht].
Defined.

(** ** Outcomes of the requests *)

(** X8: when the new count is a multiple of the threshold but the post
    has no positive time to live (none at all, or less than a second),
    [recommend_post] announces the extension and reports TTL + extension,
    while the time to live in the store is what it was. *)
Theorem recommend_announces_extension_not_made settings post_id r e :
  lookup_post post_id r = Some e →
  f_status (hash e) ≠ Some BLINDED →
  0 ≤ recs_of e →
  0 < recommendation_extension_threshold settings →
  (recs_of e + 1) `mod` recommendation_extension_threshold settings = 0 →
  default (-1) (expire e) ≤ 0 →
  ∃ d, eval (RedisService.recommend_post settings post_id) r = Ok d
       ∧ extended d = true
       ∧ rec_ttl_seconds d
         = Some (default (-1) (expire e) + recommendation_extension_ttl settings)
       ∧ remaining_ttl post_id (exec (RedisService.recommend_post settings post_id) r)
         = default (-1) (expire e).
Proof.
  intros Hk Hs Hc HT Hm Ht.
  pose proof (recommend_post_present settings _ _ _ Hk Hs) as Hr.
  fold (recs_of e) in Hr. specialize (Hr ltac:(lia)).
  assert (lua_mod (recs_of e + 1) (recommendation_extension_threshold settings) = Some 0)
    as Hl by (by apply lua_mod_multiple).
  rewrite !(bool_decide_eq_true_2 _ Hl) in Hr.
  eexists. split; [unfold eval; by rewrite Hr|]. simpl.
  split; [done|]. split; [done|].
  rewrite exec_recommend_post. unfold remaining_ttl, eval, TTL, exec.
  rewrite (RECOMMEND_SCRIPT_present _ _ _ _ _ _ Hk Hs). simpl.
  rewrite (bool_decide_eq_false_2 (0 < _)) by lia. rewrite andb_false_r.
  by rewrite lookup_insert_eq.
Qed.


Lemma recommend_announces_extension_not_made_witness :
  lookup_post "a" eternal_at_99 = Some (mkEntry (sample_hash 0 99 0 ACTIVE) None)
  ∧ ∃ d, eval (RedisService.recommend_post default_settings "a") eternal_at_99 = Ok d
         ∧ extended d = true
         ∧ rec_ttl_seconds d = Some 299
         ∧ remaining_ttl "a"
             (exec (RedisService.recommend_post default_settings "a") eternal_at_99) = -1.
Proof.
  assert (lookup_post "a" eternal_at_99
          = Some (mkEntry (sample_hash 0 99 0 ACTIVE) None)) as H
    by (vm_compute; reflexivity).
  split; [exact H|].
  destruct (recommend_announces_extension_not_made default_settings "a" eternal_at_99 _ H)
    as (d & Hd & Hx & Ht & Hr);
    [discriminate | vm_compute; discriminate | simpl; lia | reflexivity
    | vm_compute; discriminate |].
  exists d. split; [exact Hd|]. split; [exact Hx|]. split; [exact Ht | exact Hr].
Defined.

(** X9: if the recommendation-ranking score of an existing post equals
    its count, it still does after [recommend_post]: both go up by 1, or,
    for a blinded post, neither moves (extension not negative). *)
Theorem recommend_keeps_rank_recs_in_step settings post_id r e :
  lookup_post post_id r = Some e →
  0 ≤ recommendation_extension_ttl settings →
  score posts_rank_recs post_id r = Some (recs_of e) →
  let r' := exec (RedisService.recommend_post settings post_id) r in
  ∃ e', lookup_post post_id r' = Some e'
        ∧ score posts_rank_recs post_id r' = Some (recs_of e')
        ∧ recs_of e' = (if decide (f_status (hash e) = Some BLINDED)
                        then recs_of e else recs_of e + 1).
Proof.
  intros Hk HE Hsc. simpl.
  rewrite (recommend_post_lookup _ _ _ _ Hk HE).
  eexists. split; [done|].
  rewrite exec_recommend_post. unfold score, exec in *.
  destruct (decide (f_status (hash e) = Some BLINDED)) as [Hs|Hs].
  - by rewrite (RECOMMEND_SCRIPT_blinded _ _ _ _ _ _ Hk Hs).
  - rewrite (RECOMMEND_SCRIPT_present _ _ _ _ _ _ Hk Hs). simpl in *.
    rewrite lookup_insert_eq, Hsc. done.
Qed.

Lemma recommend_keeps_rank_recs_in_step_witness :
  lookup_post "a" post_at_99 = Some (mkEntry (sample_hash 0 99 0 ACTIVE) (Some 450))
  ∧ score posts_rank_recs "a" post_at_99 = Some 99
  ∧ ∃ e', lookup_post "a" (exec (RedisService.recommend_post default_settings "a") post_at_99)
          = Some e'
        ∧ score posts_rank_recs "a"
            (exec (RedisService.recommend_post default_settings "a") post_at_99)
          = Some (recs_of e').
Proof.
  assert (lookup_post "a" post_at_99
          = Some (mkEntry (sample_hash 0 99 0 ACTIVE) (Some 450))) as H
    by (vm_compute; reflexivity).
  assert (score posts_rank_recs "a" post_at_99 = Some 99) as Hs
    by (vm_compute; reflexivity).
  split; [exact H|]. split; [exact Hs|].
  destruct (recommend_keeps_rank_recs_in_step default_settings "a" post_at_99 _ H)
    as (e' & He' & Hsc & _); [simpl; lia | exact Hs |].
  exists e'. split; [exact He' | exact Hsc].
Defined.

Lemma request_recommend_blinded settings post_id r e :
  lookup_post post_id r = Some e →
  f_status (hash e) = Some BLINDED →
  posts.recommend_post settings post_id r
    = (exec (RedisService.get_post post_id) r, HTTP_500).
Proof.
  intros Hk Hs. unfold posts.recommend_post, bind, exec.
  rewrite (get_post_present _ _ _ Hk).
  rewrite (recommend_post_blinded settings post_id _ (viewed e)); [done| |done].
  unfold lookup_post. simpl. apply lookup_insert_eq.
Qed.

(** X10: after the report request that brings an existing post to the
    blind threshold, the post is blinded, a recommend request on it
    answers 500, and its recommendations are what they were. *)
Theorem blinding_report_breaks_recommend settings post_id r e :
  lookup_post post_id r = Some e →
  report_blind_threshold settings ≤ reports_of e + 1 →
  let reported := exec (posts.report_post settings post_id) r in
  stored_status post_id reported = Some BLINDED
  ∧ eval (posts.recommend_post settings post_id) reported = HTTP_500
  ∧ stored recommendations post_id
      (exec (posts.recommend_post settings post_id) reported)
    = f_recommendations (hash e).
Proof.
  intros Hk HB. simpl.
  rewrite (exec_request_report _ _ _ _ Hk).
  pose proof (get_post_lookup _ _ _ Hk) as Hv.
  pose proof (report_post_lookup settings _ _ _ Hv) as Hr.
  change (reports_of (mkEntry (set_counter views (views_of e + 1) (hash e)) (expire e)))
    with (reports_of e) in Hr.
  rewrite decide_True in Hr by done.
  set (reported := exec (RedisService.report_post settings post_id) _) in *.
  split; [unfold stored_status; by rewrite Hr|].
  unfold eval, exec at 1. rewrite (request_recommend_blinded _ _ _ _ Hr eq_refl).
  split; [done|]. simpl.
  unfold stored. by rewrite (get_post_lookup _ _ _ Hr).
Qed.


Lemma blinding_report_breaks_recommend_witness :
  lookup_post "a" post_at_49_reports
    = Some (mkEntry (sample_hash 2 7 49 ACTIVE) (Some 450))
  ∧ eval (posts.recommend_post default_settings "a")
      (exec (posts.report_post default_settings "a") post_at_49_reports) = HTTP_500
  ∧ stored recommendations "a"
      (exec (posts.recommend_post default_settings "a")
            (exec (posts.report_post default_settings "a") post_at_49_reports))
    = Some 7.
Proof.
  assert (lookup_post "a" post_at_49_reports
          = Some (mkEntry (sample_hash 2 7 49 ACTIVE) (Some 450))) as H
    by (vm_compute; reflexivity).
  split; [exact H|].
  destruct (blinding_report_breaks_recommend default_settings "a" post_at_49_reports _ H)
    as (_ & H500 & Hrec); [vm_compute; discriminate |].
  split; [exact H500 | exact Hrec].
Defined.

(** X11: a report request on an existing post answers 200 with
    success, the count raised by 1 and the blinded message exactly from
    the threshold on, whatever the status of the post; it leaves the
    recommendations, the time to live, and the active, expiring and
    recommendation indexes as they were. *)
Theorem report_request_succeeds settings post_id r e :
  lookup_post post_id r = Some e →
  let r' := exec (posts.report_post settings post_id) r in
  eval (posts.report_post settings post_id) r
    = HTTP_200 {| rep_success := true;
                  rep_reports := reports_of e + 1;
                  rep_message :=
                    Some (if decide (report_blind_threshold settings ≤ reports_of e + 1)
                          then msg_blinded (report_blind_threshold settings)
                          else msg_reported) |}
  ∧ stored reports post_id r' = Some (reports_of e + 1)
  ∧ stored recommendations post_id r' = f_recommendations (hash e)
  ∧ remaining_ttl post_id r' = remaining_ttl post_id r
  ∧ active r' = active r ∧ expiring r' = expiring r ∧ rank_recs r' = rank_recs r.
Proof.
  intros Hk. simpl.
  pose proof (get_post_lookup _ _ _ Hk) as Hv.
  pose proof (report_post_lookup settings _ _ _ Hv) as Hr.
  change (reports_of (mkEntry (set_counter views (views_of e + 1) (hash e)) (expire e)))
    with (reports_of e) in Hr.
  split.
  - unfold eval, posts.report_post, bind.
    rewrite (get_post_present _ _ _ Hk).
    rewrite (report_post_present settings post_id _ (viewed e)); [done|].
    unfold lookup_post. simpl. apply lookup_insert_eq.
  - rewrite (exec_request_report _ _ _ _ Hk).
    unfold stored, remaining_ttl, eval, TTL. unfold lookup_post in *.
    rewrite Hr, Hk. simpl.
    destruct (report_post_indexes settings post_id (exec (RedisService.get_post post_id) r))
      as (-> & -> & _ & ->).
    destruct (get_post_indexes post_id r) as (-> & -> & ->).
    by destruct (decide _).
Qed.

Lemma report_request_succeeds_witness :
  lookup_post "a" post_at_49_reports
    = Some (mkEntry (sample_hash 2 7 49 ACTIVE) (Some 450))
  ∧ eval (posts.report_post default_settings "a") post_at_49_reports
    = HTTP_200 {| rep_success := true; rep_reports := 50;
                  rep_message := Some (msg_blinded 50) |}.
Proof.
  assert (lookup_post "a" post_at_49_reports
          = Some (mkEntry (sample_hash 2 7 49 ACTIVE) (Some 450))) as H
    by (vm_compute; reflexivity).
  split; [exact H|].
  exact (proj1 (report_request_succeeds default_settings "a" post_at_49_reports _ H)).
Defined.

(** X12: a get request on an existing post counts the view in the store,
    and when it answers 200 the body shows the views from before that
    view, max(0, TTL) and the stored content; a record with no content or
    no creation time gets 500 (its view is counted all the same), and a
    record with both and no negative counter gets 200. *)
Theorem get_request_shows_views_before post_id r e :
  lookup_post post_id r = Some e →
  let r' := exec (posts.get_post post_id) r in
  stored views post_id r' = Some (views_of e + 1)
  ∧ (∀ body, eval (posts.get_post post_id) r = HTTP_200 body →
             resp_views body = views_of e
             ∧ resp_ttl_seconds body = Z.max 0 (remaining_ttl post_id r)
             ∧ Some (resp_content body) = f_content (hash e))
  ∧ (f_content (hash e) = None ∨ f_created_at (hash e) = None →
     eval (posts.get_post post_id) r = HTTP_500)
  ∧ (is_Some (f_content (hash e)) → is_Some (f_created_at (hash e)) →
     0 ≤ views_of e → 0 ≤ recs_of e → 0 ≤ reports_of e →
     ∃ body, eval (posts.get_post post_id) r = HTTP_200 body).
Proof.
  intros Hk. simpl. rewrite exec_request_get.
  split; [unfold stored; by rewrite (get_post_lookup _ _ _ Hk)|].
  unfold eval, posts.get_post, bind. rewrite (get_post_present _ _ _ Hk). simpl.
  unfold PostResponse_of, remaining_ttl, eval, TTL. unfold lookup_post in Hk.
  rewrite Hk. simpl.
  split; [|split].
  - intros body. destruct (f_content (hash e)); [|done].
    destruct (f_created_at (hash e)); [|done].
    destruct (bool_decide _); [|done]. by intros [= <-].
  - intros [-> | ->]; [done|]. by destruct (f_content (hash e)).
  - intros [c ->] [t ->] Hv Hrc Hrp.
    rewrite bool_decide_eq_true_2; [by eexists|].
    unfold views_of, recs_of, reports_of in *. repeat split; lia.
Qed.

Lemma get_request_shows_views_before_witness :
  lookup_post "a" fresh_post = Some (mkEntry (sample_hash 0 0 0 ACTIVE) (Some 600))
  ∧ stored views "a" (exec (posts.get_post "a") fresh_post) = Some 1
  ∧ ∃ body, eval (posts.get_post "a") fresh_post = HTTP_200 body ∧ resp_views body = 0.
Proof.
  assert (lookup_post "a" fresh_post
          = Some (mkEntry (sample_hash 0 0 0 ACTIVE) (Some 600))) as H
    by (vm_compute; reflexivity).
  split; [exact H|].
  destruct (get_request_shows_views_before "a" fresh_post _ H) as (Hv & Hshow & _ & Hok).
  split; [exact Hv|].
  destruct Hok as [body Hbody]; [by eexists | by eexists | done | done | done |].
  exists body. split; [exact Hbody|]. exact (proj1 (Hshow body Hbody)).
Defined.

(** X1: after [create_post] with an id that had no record, the id still
    has none: [get_post] returns None, and the get, recommend and report
    requests answer 404; the active and the expiring index are as they
    were, and only the two ranking entries of the id are set, to 0. *)
Theorem created_post_is_not_found settings post_id now content tags r :
  lookup_post post_id r = None →
  let created := exec (RedisService.create_post settings post_id now content tags) r in
  eval (RedisService.get_post post_id) created = None
  ∧ eval (posts.get_post post_id) created = HTTP_404
  ∧ eval (posts.recommend_post settings post_id) created = HTTP_404
  ∧ eval (posts.report_post settings post_id) created = HTTP_404
  ∧ active created = active r
  ∧ expiring created = expiring r
  ∧ score posts_rank_views post_id created = Some 0
  ∧ score posts_rank_recs post_id created = Some 0.
Proof.
  intros Hk. simpl.
  set (created := exec (RedisService.create_post settings post_id now content tags) r).
  assert (lookup_post post_id created = None) as Hk' by done.
  unfold eval.
  rewrite (get_post_absent _ _ Hk'), (request_absent_recommend _ _ _ Hk'),
    (request_absent_report _ _ _ Hk').
  unfold posts.get_post, bind. rewrite (get_post_absent _ _ Hk'). simpl.
  unfold score. simpl. rewrite !lookup_insert_eq. done.
Qed.

Lemma created_post_is_not_found_witness :
  lookup_post "p" empty_redis = None
  ∧ eval (posts.get_post "p")
      (exec (RedisService.create_post default_settings "p" 1000 "hi" []) empty_redis)
    = HTTP_404.
Proof.
  assert (lookup_post "p" empty_redis = None) as H by (vm_compute; reflexivity).
  split; [exact H|].
  destruct (created_post_is_not_found default_settings "p" 1000 "hi" [] empty_redis H)
    as (_ & H404 & _).
  exact H404.
Defined.


(** ** The tagger *)

Lemma HSET_tags_json_present key r e :
  keyspace r !! key = Some e → exec (HSET_tags_json key) r = r.
Proof.
  intros Hk. unfold exec, HSET_tags_json, with_keyspace. simpl.
  rewrite Hk. simpl. rewrite insert_id by done. by destruct r.
Qed.

Lemma tag_post_present post_id answer r e :
  lookup_post post_id r = Some e → exec (AIService.tag_post post_id answer) r = r.
Proof.
  intros Hk. destruct answer; try done;
    unfold exec, AIService.tag_post, bind;
    pose proof (HSET_tags_json_present _ _ _ Hk) as Hx; unfold exec in Hx;
    destruct (HSET_tags_json (post_key post_id) r) as [r1 []]; simpl in *; by subst.
Qed.

Lemma tag_post_lookup_other post_id post_id' answer r :
  post_id ≠ post_id' →
  lookup_post post_id' (exec (AIService.tag_post post_id answer) r)
    = lookup_post post_id' r.
Proof.
  intros Hne. assert (post_key post_id ≠ post_key post_id') as Hk'
    by (by intros ?%post_key_inj).
  destruct answer; try done; unfold lookup_post; simpl; by rewrite lookup_insert_ne.
Qed.

(** X20: tagging an existing post leaves the store as it was, whatever
    the model answered: the tags go to the field [tags_json], and
    [get_post] still returns the snapshot of the record as stored. *)
Theorem tag_post_never_shows post_id answer r e :
  lookup_post post_id r = Some e →
  exec (AIService.tag_post post_id answer) r = r
  ∧ eval (RedisService.get_post post_id) (exec (AIService.tag_post post_id answer) r)
    = Some (snapshot post_id e).
Proof.
  intros Hk. rewrite (tag_post_present _ _ _ _ Hk). split; [done|].
  by rewrite get_post_eval, Hk.
Qed.

Lemma tag_post_never_shows_witness :
  lookup_post "a" fresh_post = Some (mkEntry (sample_hash 0 0 0 ACTIVE) (Some 600))
  ∧ (p_tags <$> eval (RedisService.get_post "a")
       (exec (AIService.tag_post "a" (answer_list [[97; 98]%N])) fresh_post))
    = Some [].
Proof.
  assert (lookup_post "a" fresh_post
          = Some (mkEntry (sample_hash 0 0 0 ACTIVE) (Some 600))) as H
    by (vm_compute; reflexivity).
  split; [exact H|].
  rewrite (proj2 (tag_post_never_shows "a" (answer_list [[97; 98]%N]) fresh_post _ H)).
  reflexivity.
Defined.

Lemma get_request_shows_views_before_aux post_id r e :
  lookup_post post_id r = Some e →
  f_content (hash e) = None →
  eval (posts.get_post post_id) r = HTTP_500
  ∧ stored views post_id (exec (posts.get_post post_id) r) = Some (views_of e + 1).
Proof.
  intros Hk Hc. rewrite exec_request_get.
  split; [|unfold stored; by rewrite (get_post_lookup _ _ _ Hk)].
  unfold eval, posts.get_post, bind. rewrite (get_post_present _ _ _ Hk). simpl.
  unfold PostResponse_of. simpl. by rewrite Hc.
Qed.

(** X21: tagging an id that has no record (the answer having arrived)
    leaves a record with none of the post's fields and no expiry; a get
    request on it answers 500 and counts a view. *)
Theorem tag_post_revives_missing_post post_id answer r :
  lookup_post post_id r = None →
  answer ≠ call_raises →
  let r' := exec (AIService.tag_post post_id answer) r in
  lookup_post post_id r' = Some no_entry
  ∧ remaining_ttl post_id r' = -1
  ∧ eval (posts.get_post post_id) r' = HTTP_500
  ∧ stored views post_id (exec (posts.get_post post_id) r') = Some 1.
Proof.
  intros Hk Hc. simpl.
  assert (lookup_post post_id (exec (AIService.tag_post post_id answer) r)
          = Some no_entry) as Hk'.
  { unfold lookup_post in *.
    destruct answer; try done; simpl; rewrite Hk; apply lookup_insert_eq. }
  split; [done|].
  split; [unfold remaining_ttl, eval, TTL; unfold lookup_post in Hk'; by rewrite Hk'|].
  by destruct (get_request_shows_views_before_aux post_id _ _ Hk' eq_refl) as [H500 Hv].
Qed.

Lemma tag_post_revives_missing_post_witness :
  lookup_post "p" empty_redis = None
  ∧ eval (posts.get_post "p")
      (exec (AIService.tag_post "p" answer_malformed)
         (exec (RedisService.create_post default_settings "p" 1000 "hi" []) empty_redis))
    = HTTP_500.
Proof.
  assert (lookup_post "p"
            (exec (RedisService.create_post default_settings "p" 1000 "hi" []) empty_redis)
          = None) as H by (vm_compute; reflexivity).
  split; [vm_compute; reflexivity|].
  destruct (tag_post_revives_missing_post "p" answer_malformed _ H) as (_ & _ & H500 & _);
    [discriminate | exact H500].
Defined.

(** ** Along any run of actions *)

Lemma exec_get_posts page per_page r :
  ∃ post_ids, exec (posts.get_posts page per_page) r = read_all post_ids r.
Proof.
  unfold exec, posts.get_posts, bind. rewrite get_active_posts_run. simpl. eauto.
Qed.

Lemma exec_get_ranking rank_type limit r :
  ∃ post_ids, exec (posts.get_ranking rank_type limit) r = read_all post_ids r.
Proof.
  unfold exec, posts.get_ranking, bind. rewrite get_ranking_run. simpl. eauto.
Qed.

Lemma perform_grows settings op r post_id e :
  0 ≤ recommendation_extension_ttl settings →
  lookup_post post_id r = Some e →
  ∃ e', lookup_post post_id (perform settings op r) = Some e' ∧ grown e e'.
Proof.
  intros HE He. destruct op as [p now c t|p|p|p|now|p|p|p]; simpl.
  - exists e. split; [done | apply grown_refl].
  - by apply get_post_grows.
  - by apply recommend_post_grows.
  - by apply report_post_grows.
  - rewrite cleanup_expired_indexes_unchanged. eauto using grown_refl.
  - rewrite exec_request_get. by apply get_post_grows.
  - destruct (lookup_post p r) as [e0|] eqn:Hk.
    + rewrite (exec_request_recommend _ _ _ _ Hk).
      destruct (get_post_grows p r post_id e He) as (e1 & He1 & Hg1).
      destruct (recommend_post_grows settings p _ post_id e1 HE He1) as (e2 & He2 & Hg2).
      eauto using grown_trans.
    + unfold exec. rewrite (request_absent_recommend _ _ _ Hk). eauto using grown_refl.
  - destruct (lookup_post p r) as [e0|] eqn:Hk.
    + rewrite (exec_request_report _ _ _ _ Hk).
      destruct (get_post_grows p r post_id e He) as (e1 & He1 & Hg1).
      destruct (report_post_grows settings p _ post_id e1 He1) as (e2 & He2 & Hg2).
      eauto using grown_trans.
    + unfold exec. rewrite (request_absent_report _ _ _ Hk). eauto using grown_refl.
Qed.

Lemma run_action_grows settings a r post_id e :
  0 ≤ recommendation_extension_ttl settings →
  lookup_post post_id r = Some e →
  ∃ e', lookup_post post_id (run_action settings a r) = Some e' ∧ grown e e'.
Proof.
  intros HE He. destruct a as [op|page per_page|rank_type limit|p answer]; simpl.
  - by apply perform_grows.
  - destruct (exec_get_posts page per_page r) as [ids ->]. by apply read_all_grows.
  - destruct (exec_get_ranking rank_type limit r) as [ids ->]. by apply read_all_grows.
  - destruct (decide (p = post_id)) as [->|Hne].
    + rewrite (tag_post_present _ _ _ _ He). eauto using grown_refl.
    + rewrite tag_post_lookup_other by done. eauto using grown_refl.
Qed.

(** X22: along any run of operations, requests, listings, rankings and
    taggings (extension not negative), a record stays in the store with
    its id, content, creation time and tags unchanged, none of its three
    counters lower, and blinded if it was blinded. *)
Theorem records_only_grow settings actions r post_id e :
  0 ≤ recommendation_extension_ttl settings →
  lookup_post post_id r = Some e →
  ∃ e', lookup_post post_id (run_actions settings actions r) = Some e' ∧ grown e e'.
Proof.
  intros HE. revert r e. induction actions as [|a actions IH]; intros r e He.
  - eauto using grown_refl.
  - destruct (run_action_grows settings a r post_id e HE He) as (e1 & He1 & Hg1).
    destruct (IH _ _ He1) as (e2 & He2 & Hg2).
    exists e2. split; [exact He2 | by eapply grown_trans].
Qed.

Lemma records_only_grow_witness :
  lookup_post "a" post_at_49_reports
    = Some (mkEntry (sample_hash 2 7 49 ACTIVE) (Some 450))
  ∧ ∃ e', lookup_post "a"
            (run_actions default_settings
               [act (op_report_request "a"); act (op_recommend_request "a");
                act_list 1 20; act_tag "a" answer_not_a_list; act (op_cleanup 5000)]
               post_at_49_reports) = Some e'
          ∧ f_status (hash e') = Some BLINDED
          ∧ 7 ≤ recs_of e'.
Proof.
  assert (lookup_post "a" post_at_49_reports
          = Some (mkEntry (sample_hash 2 7 49 ACTIVE) (Some 450))) as H
    by (vm_compute; reflexivity).
  split; [exact H|].
  destruct (records_only_grow default_settings
              [act (op_report_request "a"); act (op_recommend_request "a");
               act_list 1 20; act_tag "a" answer_not_a_list; act (op_cleanup 5000)]
              post_at_49_reports "a" _ ltac:(simpl; lia) H)
    as (e' & He' & Hg).
  exists e'. split; [exact He'|].
  destruct Hg as (_ & _ & _ & _ & _ & Hr & _ & _).
  split; [|exact Hr].
  vm_compute in He'. injection He' as <-. reflexivity.
Defined.


(** ** Validating a new post *)

Lemma lstrip_length s : (length (lstrip s) ≤ length s)%nat.
Proof. induction s as [|c s IH]; simpl; [done|]. destruct (isspace c); simpl; lia. Qed.

Lemma lstrip_head s c s' : lstrip s = c :: s' → isspace c = false.
Proof.
  induction s as [|x s IH]; simpl; [done|].
  destruct (isspace x) eqn:Hx; [done|]. by intros [= <- _].
Qed.

Lemma lstrip_fixed c s : isspace c = false → lstrip (c :: s) = c :: s.
Proof. intros Hc. simpl. by rewrite Hc. Qed.

Lemma lstrip_snoc s c : isspace c = false → lstrip (s ++ [c]) = lstrip s ++ [c].
Proof.
  intros Hc. induction s as [|x s IH]; simpl; [by rewrite Hc|].
  by destruct (isspace x).
Qed.

Lemma rstrip_length s : (length (rstrip s) ≤ length s)%nat.
Proof.
  unfold rstrip. rewrite length_reverse.
  etrans; [apply lstrip_length|]. by rewrite length_reverse.
Qed.

Lemma rstrip_cons c s : isspace c = false → rstrip (c :: s) = c :: rstrip s.
Proof.
  intros Hc. unfold rstrip. rewrite reverse_cons, lstrip_snoc by done.
  by rewrite reverse_app.
Qed.

Lemma rstrip_last s c s' : rstrip s = s' ++ [c] → isspace c = false.
Proof.
  unfold rstrip. intros H.
  apply (f_equal reverse) in H. rewrite reverse_involutive, reverse_app in H.
  simpl in H. by eapply lstrip_head.
Qed.

Lemma rstrip_idemp s : rstrip (rstrip s) = rstrip s.
Proof.
  unfold rstrip. rewrite reverse_involutive. f_equal.
  destruct (lstrip (reverse s)) as [|c t] eqn:H; [done|].
  apply lstrip_fixed. by eapply lstrip_head.
Qed.

Lemma strip_length s : (length (strip s) ≤ length s)%nat.
Proof. unfold strip. etrans; [apply rstrip_length | apply lstrip_length]. Qed.

Lemma strip_head s c s' : strip s = c :: s' → isspace c = false.
Proof.
  unfold strip. destruct (lstrip s) as [|x t] eqn:H; [done|].
  pose proof (lstrip_head _ _ _ H) as Hx.
  rewrite rstrip_cons by done. by intros [= <- _].
Qed.

Lemma strip_idemp s : strip (strip s) = strip s.
Proof.
  unfold strip. destruct (lstrip s) as [|x t] eqn:H; [done|].
  pose proof (lstrip_head _ _ _ H) as Hx.
  rewrite rstrip_cons by done. rewrite lstrip_fixed by done.
  rewrite <- rstrip_cons by done. apply rstrip_idemp.
Qed.

(** X23: a content that [PostCreate] accepts comes out stripped: it is
    the stripped input, 1 to 200 characters long, with no white space at
    either end, and validating it again gives it back. *)
Theorem PostCreate_accepts_stripped content v :
  PostCreate_of content = Ok v →
  v = strip content
  ∧ (1 ≤ length v ≤ 200)%nat
  ∧ (∀ c s, v = c :: s → isspace c = false)
  ∧ (∀ s c, v = s ++ [c] → isspace c = false)
  ∧ PostCreate_of v = Ok v.
Proof.
  unfold PostCreate_of. destruct (decide (1 ≤ length content ≤ 200)%nat) as [Hl|]; [|done].
  destruct (decide (strip content = [])) as [|Hne]; [done|]. intros [= <-].
  assert (1 ≤ length (strip content) ≤ 200)%nat as Hlen.
  { pose proof (strip_length content).
    destruct (strip content); [done|]. simpl in *. lia. }
  split; [done|]. split; [done|]. split; [|split].
  - intros c s. apply strip_head.
  - intros s c. unfold strip. apply rstrip_last.
  - rewrite decide_True by done. rewrite strip_idemp. by rewrite decide_False.
Qed.

Lemma PostCreate_accepts_stripped_witness :
  PostCreate_of [32; 104; 105; 9]%N = Ok [104; 105]%N
  ∧ PostCreate_of [104; 105]%N = Ok [104; 105]%N.
Proof.
  assert (PostCreate_of [32; 104; 105; 9]%N = Ok [104; 105]%N) as H
    by (vm_compute; reflexivity).
  split; [exact H|].
  exact (proj2 (proj2 (proj2 (proj2 (PostCreate_accepts_stripped _ _ H))))).
Defined.

(** X24: [PostCreate] refuses a content made of white space only, even
    when its length is within the bounds, and a content of more than 200
    characters, even when stripping would bring it within them; every
    refusal is a validation error. *)
Theorem PostCreate_refuses content :
  (Forall (λ c, isspace c = true) content → PostCreate_of content = Raise ValidationError)
  ∧ ((200 < length content)%nat → PostCreate_of content = Raise ValidationError)
  ∧ (∀ e, PostCreate_of content = Raise e → e = ValidationError).
Proof.
  unfold PostCreate_of. split; [|split].
  - intros Hall.
    assert (lstrip content = []) as Hs.
    { induction Hall as [|c s Hc _ IH]; simpl; [done|]. by rewrite Hc. }
    destruct (decide _); [|done].
    unfold strip. rewrite Hs. by rewrite decide_True.
  - intros Hl. by rewrite decide_False by lia.
  - intros e. destruct (decide _); [destruct (decide _)|]; by intros [= <-].
Qed.

Lemma PostCreate_refuses_witness :
  Forall (λ c, isspace c = true) [32; 32]%N
  ∧ PostCreate_of [32; 32]%N = Raise ValidationError.
Proof.
  assert (Forall (λ c, isspace c = true) [32; 32]%N) as H
    by (repeat constructor).
  split; [exact H|].
  exact (proj1 (PostCreate_refuses [32; 32]%N) H).
Defined.


(** ** Pages with a record that does not validate *)

Lemma all_ok_raises {A B} (f : A → result B) l x :
  x ∈ l → (∃ e, f x = Raise e) → ∃ e, all_ok f l = Raise e.
Proof.
  intros Hin [e He]. induction l as [|y l IH]; [by apply elem_of_nil in Hin|].
  apply elem_of_cons in Hin as [->|Hin]; simpl.
  - rewrite He. eauto.
  - destruct (f y); [|eauto]. destruct (IH Hin) as [e' ->]. eauto.
Qed.

Lemma PostResponse_of_incomplete post_id e :
  f_content (hash e) = None ∨ f_created_at (hash e) = None →
  ∃ x, PostResponse_of (snapshot post_id e) = Raise x.
Proof.
  unfold PostResponse_of. simpl. intros [-> | ->]; [eauto|].
  destruct (f_content (hash e)); eauto.
Qed.

(** X19: one record with no content or no creation time makes the whole
    answer fail: the listing request answers 500 when such a record, not
    blinded, is on its page, and the ranking request answers 500 when such
    a record is within its limit. *)
Theorem incomplete_record_fails_the_page page per_page rank_type limit r post_id e :
  lookup_post post_id r = Some e →
  f_content (hash e) = None ∨ f_created_at (hash e) = None →
  (f_status (hash e) = None ∨ f_status (hash e) = Some ACTIVE →
   post_id ∈ eval (ZREVRANGE posts_active ((page - 1) * Z.min per_page 100)
                     ((page - 1) * Z.min per_page 100 + Z.min per_page 100 - 1)) r →
   eval (posts.get_posts page per_page) r = HTTP_500)
  ∧ (post_id ∈ eval (ZREVRANGE (RedisService.rank_key rank_type) 0 (Z.min limit 50 - 1)) r →
     eval (posts.get_ranking rank_type limit) r = HTTP_500).
Proof.
  intros Hk Hinc. split.
  - intros Hs Hin.
    change (eval (posts.get_posts page per_page) r)
      with (posts.get_posts page per_page r).2.
    unfold posts.get_posts, bind.
    rewrite get_active_posts_run. simpl. unfold PostListResponse_of. simpl.
    destruct (all_ok_raises PostResponse_of
                (omap (listed r)
                   (eval (ZREVRANGE posts_active ((page - 1) * Z.min per_page 100)
                            ((page - 1) * Z.min per_page 100 + Z.min per_page 100 - 1)) r))
                (snapshot post_id e)) as [x ->]; [| |done].
    + apply list_elem_of_omap. exists post_id. split; [done|].
      unfold listed. rewrite Hk. simpl.
      rewrite decide_True; [done|]. by destruct Hs as [-> | ->].
    + by apply PostResponse_of_incomplete.
  - intros Hin.
    change (eval (posts.get_ranking rank_type limit) r)
      with (posts.get_ranking rank_type limit r).2.
    unfold posts.get_ranking, bind.
    rewrite get_ranking_run. simpl.
    apply list_elem_of_fmap in Hin as ([p s] & -> & Hin). simpl in Hk.
    destruct (all_ok_raises (λ item, PostResponse_of (rk_post item))
                (omap (ranked r)
                   (eval (ZREVRANGE_WITHSCORES (RedisService.rank_key rank_type) 0
                            (Z.min limit 50 - 1)) r))
                {| rk_post := snapshot p e; rk_score := s |}) as [x ->]; [| |done].
    + apply list_elem_of_omap. exists (p, s). split; [done|].
      unfold ranked. simpl. by rewrite Hk.
    + simpl. by apply PostResponse_of_incomplete.
Qed.

Lemma incomplete_record_fails_the_page_witness :
  eval (posts.get_ranking rank_type_views 10)
    (exec (AIService.tag_post "p" answer_not_a_list)
       (exec (RedisService.create_post default_settings "p" 1000 "hi" []) empty_redis))
  = HTTP_500.
Proof.
  set (r := exec (AIService.tag_post "p" answer_not_a_list)
              (exec (RedisService.create_post default_settings "p" 1000 "hi" [])
                    empty_redis)).
  assert (lookup_post "p" r = Some no_entry) as H by (vm_compute; reflexivity).
  destruct (incomplete_record_fails_the_page 1 20 rank_type_views 10 r "p" _ H)
    as [_ Hrank]; [by left|].
  apply Hrank.
  assert (eval (ZREVRANGE (RedisService.rank_key rank_type_views) 0 (Z.min 10 50 - 1)) r
          = ["p"]) as -> by (vm_compute; reflexivity).
  apply elem_of_cons. by left.
Defined.

Lemma get_active_posts_lists_page_witness :
  (p_id <$> ap_posts (eval (RedisService.get_active_posts 1 20) three_ids)) = ["a"]
  ∧ ap_total (eval (RedisService.get_active_posts 1 20) three_ids) = 3
  ∧ Z.of_nat (length (ap_posts (eval (RedisService.get_active_posts 1 20) three_ids))) ≤ 20.
Proof.
  destruct (get_active_posts_lists_page 1 20 three_ids) as (Hposts & _ & Htotal & Hlen).
  split; [rewrite Hposts; vm_compute; reflexivity|].
  split; [rewrite Htotal; vm_compute; reflexivity|].
  apply Hlen; lia.
Defined.

Lemma get_active_posts_counts_views_witness :
  lookup_post "b" three_ids = Some (mkEntry (sample_hash 7 2 60 BLINDED) (Some 100))
  ∧ "b" ∈ eval (ZREVRANGE posts_active 0 19) three_ids
  ∧ stored views "b" (exec (RedisService.get_active_posts 1 20) three_ids) = Some 8.
Proof.
  assert (lookup_post "b" three_ids
          = Some (mkEntry (sample_hash 7 2 60 BLINDED) (Some 100))) as H
    by (vm_compute; reflexivity).
  assert ("b" ∈ eval (ZREVRANGE posts_active 0 19) three_ids) as Hin.
  { assert (eval (ZREVRANGE posts_active 0 19) three_ids = ["c"; "b"; "a"]) as ->
      by (vm_compute; reflexivity).
    rewrite !elem_of_cons. tauto. }
  split; [exact H|]. split; [exact Hin|].
  destruct (get_active_posts_counts_views 1 20 three_ids "b" _ H) as (Hv & _).
  exact (proj1 (Hv Hin)).
Defined.

Lemma get_posts_page_size_witness :
  (∃ body, eval (posts.get_posts 1 20) three_ids = HTTP_200 body
           ∧ Z.of_nat (length (list_posts body)) ≤ 20)
  ∧ (∃ body, eval (posts.get_posts 7 0) three_ids = HTTP_200 body
             ∧ length (list_posts body)
               = length (omap (listed three_ids) (zrev_sorted (active three_ids)).*1)).
Proof.
  split.
  - assert (∃ body, eval (posts.get_posts 1 20) three_ids = HTTP_200 body) as [body H]
      by (vm_compute; eauto).
    exists body. split; [exact H|].
    exact (proj1 (get_posts_page_size 1 20 three_ids body H) ltac:(lia) ltac:(lia)).
  - assert (∃ body, eval (posts.get_posts 7 0) three_ids = HTTP_200 body) as [body H]
      by (vm_compute; eauto).
    exists body. split; [exact H|].
    exact (proj2 (get_posts_page_size 7 0 three_ids body H) eq_refl).
Defined.

Lemma get_ranking_in_score_order_witness :
  (rk_score <$> eval (RedisService.get_ranking rank_type_views 10) three_ids) = [7; 5]
  ∧ (p_status ∘ rk_post <$> eval (RedisService.get_ranking rank_type_views 10) three_ids)
    = [BLINDED; ACTIVE].
Proof.
  destruct (get_ranking_in_score_order rank_type_views 10 three_ids) as (Hr & _).
  rewrite Hr. split; vm_compute; reflexivity.
Defined.

Lemma get_ranking_counts_views_witness :
  lookup_post "a" three_ids = Some (mkEntry (sample_hash 5 1 0 ACTIVE) (Some 100))
  ∧ ("a", 1) ∈ eval (ZREVRANGE_WITHSCORES posts_rank_recs 0 9) three_ids
  ∧ stored views "a" (exec (RedisService.get_ranking rank_type_recs 10) three_ids) = Some 6.
Proof.
  assert (lookup_post "a" three_ids
          = Some (mkEntry (sample_hash 5 1 0 ACTIVE) (Some 100))) as H
    by (vm_compute; reflexivity).
  assert (("a", 1) ∈ eval (ZREVRANGE_WITHSCORES posts_rank_recs 0 9) three_ids) as Hin.
  { assert (eval (ZREVRANGE_WITHSCORES posts_rank_recs 0 9) three_ids
            = [("b", 2); ("a", 1); ("c", 0)]) as -> by (vm_compute; reflexivity).
    rewrite !elem_of_cons. tauto. }
  split; [exact H|]. split; [exact Hin|].
  exact (proj1 (get_ranking_counts_views rank_type_recs 10 three_ids "a" _ 1 H Hin)).
Defined.

Lemma get_ranking_request_size_witness :
  ∃ body, eval (posts.get_ranking rank_type_recs 0) three_ids = HTTP_200 body
          ∧ length body = 2%nat.
Proof.
  assert (∃ body, eval (posts.get_ranking rank_type_recs 0) three_ids = HTTP_200 body)
    as [body H] by (vm_compute; eauto).
  exists body. split; [exact H|].
  rewrite (proj2 (get_ranking_request_size rank_type_recs 0 three_ids body H) eq_refl).
  vm_compute. reflexivity.
Defined.
